(** * P2P auction service: the coordination engine and its RPC multiplexer

    A shallow embedding of [P2PAuctionService] (the auction state machine
    and its timer table) and of [RPC] (the request multiplexer), followed
    by the properties of the engine.

    Conventions of the embedding.
    - An [async] method is a function from the service state to a settled
      promise ([Ok v] for a fulfilled one, [Throw e] for a rejected one)
      and the state it leaves once the work it started has run to
      completion, no other call running in between. Calls that overlap
      are the subject of the section on interleaved [placeBid] calls.
    - [Date.now()] and [crypto.randomUUID()] read the environment; every
      read is an explicit argument of the operation that performs it.
    - Prices, amounts and timestamps are the integers among the JS numbers.
      The code computes in doubles and the store encodes values as JSON:
      sums and products are the integer ones as long as operands and
      result are safe integers ([safe_integer]), and a finite number is
      stored as it is. Numbers that are not finite are outside the
      embedding of the engine; what the bid checks and the store make of
      them is given apart, in [NonFinite].
    - The Hyperbee store hands out a freshly decoded value on every [get]
      and keeps what was [put], so it is a finite map from keys to records;
      the sequence of [put] calls is recorded next to it. *)

From Stdlib Require Import ZArith.
From stdpp Require Import gmap strings list sorting.

Local Open Scope string_scope.
Local Open Scope list_scope.
Local Open Scope Z_scope.

(** ** Promises and exceptions *)

(** The two kinds of exception the engine can raise: [new Error(msg)] and
    the runtime's [TypeError] on reading a property of [null]. *)
Inductive exn :=
  | Error (msg : string)
  | TypeError (msg : string).

Definition message (e : exn) : string :=
  match e with
  | Error msg => msg
  | TypeError msg => msg
  end.

Inductive outcome (A : Type) :=
  | Ok (a : A)
  | Throw (e : exn).
Arguments Ok {A} a.
Arguments Throw {A} e.

(** A property of a JS object: never assigned, assigned [null], or
    assigned a value. *)
Inductive field (A : Type) :=
  | Unset
  | Null
  | Val (a : A).
Arguments Unset {A}.
Arguments Null {A}.
Arguments Val {A} a.

(** ** The request multiplexer (class [RPC]) *)

Module RPC.
Section Multiplexer.
(** [V] is the type of JSON values carried as parameters and results,
    [S] the state the bound handlers act on. *)
Context {V S : Type}.

(** A decoded inbound frame [{ method, params, id }]. *)
Record Request := {
  method : string;
  params : list V;
  id : string;
}.

(** The object spread into a reply: [{ result }] or [{ error }]. *)
Inductive Payload :=
  | Result (result : V)
  | ErrorReply (error : string).

(** A reply [{ id, ...response }] handed to [conn.write]. *)
Record Response := {
  resp_id : string;
  response : Payload;
}.

(** A bound handler, applied to the spread parameters. *)
Definition Handler : Type := list V → S → outcome V * S.

Record t := {
  handlers : gmap string Handler;
  written : list Response;      (* frames written to [conn], oldest first *)
}.

Definition create : t := {| handlers := ∅; written := [] |}.

Definition respond (m : string) (handler : Handler) (rpc : t) : t :=
  {| handlers := <[m := handler]> (handlers rpc); written := written rpc |}.

Definition sendResponse (i : string) (r : Payload) (rpc : t) : t :=
  {| handlers := handlers rpc;
     written := written rpc ++ [ {| resp_id := i; response := r |} ] |}.

Definition handleMessage (msg : Request) (rpc : t) (s : S) : t * S :=
  match handlers rpc !! method msg with
  | Some handler =>
      match handler (params msg) s with
      | (Ok result, s') => (sendResponse (id msg) (Result result) rpc, s')
      | (Throw error, s') =>
          (sendResponse (id msg) (ErrorReply (message error)) rpc, s')
      end
  | None => (sendResponse (id msg) (ErrorReply "Method not found") rpc, s)
  end.
End Multiplexer.
Arguments Request : clear implicits.
Arguments Payload : clear implicits.
Arguments Response : clear implicits.
Arguments Handler : clear implicits.
Arguments t : clear implicits.
End RPC.

(** ** The auction state machine (class [P2PAuctionService]) *)

Inductive Status := Active | Ended.

Global Instance Status_eq_dec : EqDecision Status.
Proof. solve_decision. Defined.

Record Bid := {
  bidderName : string;
  amount : Z;
  time : Z;
}.

Record Auction := {
  item : string;
  startPrice : Z;
  startTime : Z;
  endTime : Z;
  bids : list Bid;
  status : Status;
  winner : field string;
  winningBid : field Z;
}.

(** A pending [setTimeout(() => this.endAuction(target), delay)]. *)
Record Timeout := {
  handle : nat;
  target : string;
  delay : Z;
}.

Record Service := {
  db : gmap string Auction;           (* this.db, by key *)
  puts : list (string * Auction);     (* the db.put calls made, oldest first *)
  auctionTimers : gmap string nat;    (* this.auctionTimers *)
  pending : list Timeout;             (* the runtime's scheduled callbacks *)
  nextTimer : nat;                    (* the next handle setTimeout returns *)
}.

Definition init : Service :=
  {| db := ∅; puts := []; auctionTimers := ∅; pending := []; nextTimer := 0 |}.

(** [await this.db.put(key, value)] *)
Definition db_put (key : string) (value : Auction) (s : Service) : Service :=
  {| db := <[key := value]> (db s);
     puts := puts s ++ [(key, value)];
     auctionTimers := auctionTimers s;
     pending := pending s;
     nextTimer := nextTimer s |}.

(** [clearTimeout(timer)] *)
Definition clearTimeout (timer : nat) (s : Service) : Service :=
  {| db := db s;
     puts := puts s;
     auctionTimers := auctionTimers s;
     pending := filter (λ t, handle t ≠ timer) (pending s);
     nextTimer := nextTimer s |}.

(** [this.auctionTimers.delete(auctionId)] *)
Definition timers_delete (auctionId : string) (s : Service) : Service :=
  {| db := db s;
     puts := puts s;
     auctionTimers := delete auctionId (auctionTimers s);
     pending := pending s;
     nextTimer := nextTimer s |}.

Definition setAuctionTimer (auctionId : string) (duration : Z) (s : Service)
  : Service :=
  let timer := nextTimer s in
  {| db := db s;
     puts := puts s;
     auctionTimers := <[auctionId := timer]> (auctionTimers s);
     pending := pending s ++
       [ {| handle := timer; target := auctionId; delay := duration |} ];
     nextTimer := S timer |}.

(** The integers a JS number holds exactly ([Number.isSafeInteger]); on
    them the additions and multiplications of the code are exact. *)
Definition safe_integer (z : Z) : Prop :=
  - (2 ^ 53 - 1) ≤ z ≤ 2 ^ 53 - 1.

(** [startTime + durationSeconds * 1000] and the timer delay are given as
    integer sum and product, which they are on safe integers. *)
Definition createAuction (auctionId : string) (now : Z)
    (item0 : string) (startPrice0 durationSeconds : Z) (s : Service)
  : outcome string * Service :=
  let startTime0 := now in
  let endTime0 := startTime0 + durationSeconds * 1000 in
  let auction :=
    {| item := item0; startPrice := startPrice0;
       startTime := startTime0; endTime := endTime0;
       bids := []; status := Active;
       winner := Unset; winningBid := Unset |} in
  let s1 := db_put auctionId auction s in
  let s2 := setAuctionTimer auctionId (durationSeconds * 1000) s1 in
  (Ok auctionId, s2).

(** The record [endAuction] builds from an active one. The test
    [auction.bids.length > 0] holds exactly when [bids] has a last element,
    [auction.bids[auction.bids.length - 1]]. *)
Definition ended (auction : Auction) : Auction :=
  let '(w, wb) :=
    match last (bids auction) with
    | Some winning => (Val (bidderName winning), Val (amount winning))
    | None => (Null, Null)
    end in
  {| item := item auction; startPrice := startPrice auction;
     startTime := startTime auction; endTime := endTime auction;
     bids := bids auction; status := Ended;
     winner := w; winningBid := wb |}.

(** V8's message for [auctionNode.value] when [auctionNode] is [null]. *)
Definition null_value_message : string :=
  "Cannot read properties of null (reading 'value')".

Definition endAuction (auctionId : string) (s : Service)
  : outcome Auction * Service :=
  match db s !! auctionId with
  | None => (Throw (TypeError null_value_message), s)
  | Some auction =>
      (* a stored record is an object, so [!auction] is false *)
      if decide (status auction ≠ Active) then (Ok auction, s)
      else
        let auction' := ended auction in
        let s1 := db_put auctionId auction' s in
        let s2 :=
          match auctionTimers s1 !! auctionId with
          | Some timer => timers_delete auctionId (clearTimeout timer s1)
          | None => s1
          end in
        (Ok auction', s2)
  end.

(** What [getAuction] resolves to. *)
Inductive Got :=
  | GotAuction (auction : Auction)
  | GotNull
  | GotUndefined.

(** On the expiry path the source returns [this.endAuction(auctionId).value]:
    [endAuction] is started and yields a promise, whose [value] property is
    [undefined]. The read resolves without awaiting the started call; the
    state given here is the one reached when that call has completed with
    nothing else running in between. *)
Definition getAuction (now : Z) (auctionId : string) (s : Service)
  : Got * Service :=
  match db s !! auctionId with
  | None => (GotNull, s)
  | Some auction =>
      if bool_decide (status auction = Active) && (now >? endTime auction) then
        let '(_, s') := endAuction auctionId s in (GotUndefined, s')
      else (GotAuction auction, s)
  end.

(** [auction.bids.push(newBid)] *)
Definition push_bid (newBid : Bid) (auction : Auction) : Auction :=
  {| item := item auction; startPrice := startPrice auction;
     startTime := startTime auction; endTime := endTime auction;
     bids := bids auction ++ [newBid]; status := status auction;
     winner := winner auction; winningBid := winningBid auction |}.

(** The part of [placeBid] after [await this.getAuction(auctionId)];
    [now] and [now'] are its two clock reads. *)
Definition placeBid_resume (now now' : Z)
    (auctionId bidder : string) (amt : Z) (got : Got) (s : Service)
  : outcome bool * Service :=
  match got with
  | GotNull | GotUndefined => (Throw (Error "Auction not found"), s)
  | GotAuction auction =>
      if decide (status auction ≠ Active) then
        (Throw (Error "Auction is not active"), s)
      else if now >? endTime auction then
        (Throw (Error "Auction has ended"), s)
      else if amt <=? startPrice auction then
        (Throw (Error "Bid too low"), s)
      else if match last (bids auction) with
              | Some highest => amt <=? amount highest
              | None => false          (* bids.length > 0 fails *)
              end then
        (Throw (Error "Bid must be higher than the current highest bid"), s)
      else
        let newBid := {| bidderName := bidder; amount := amt; time := now' |} in
        (Ok true, db_put auctionId (push_bid newBid auction) s)
  end.

Definition placeBid (now0 now now' : Z)
    (auctionId bidder : string) (amt : Z) (s : Service)
  : outcome bool * Service :=
  let '(got, s1) := getAuction now0 auctionId s in
  placeBid_resume now now' auctionId bidder amt got s1.

(** ** Amounts that are not finite

    [placeBid] compares the amount it is handed with [<=] and stores it
    with [db.put], whose value encoding is JSON. A JS number can be
    [Infinity], [-Infinity] or [NaN]; JSON has none of them,
    [JSON.stringify] writes [null] in their place, and [<=] takes a [null]
    operand for 0. This module gives the checks of [placeBid] on the
    amount and the bid it stores (lines 84 to 90) over such numbers, for
    a record that was read as active and before its deadline. *)

Module NonFinite.

Inductive Number :=
  | Finite (z : Z)
  | Infinity
  | NegInfinity
  | NaN.

(** A number read back from the store. *)
Inductive Json :=
  | JNumber (z : Z)
  | JNull.

(** [JSON.stringify] on the way in, [JSON.parse] on the way out. *)
Definition stored (n : Number) : Json :=
  match n with
  | Finite z => JNumber z
  | Infinity | NegInfinity | NaN => JNull
  end.

(** [ToNumber] of an operand of [<=]. *)
Definition to_number (v : Json) : Number :=
  match v with
  | JNumber z => Finite z
  | JNull => Finite 0
  end.

(** [a <= b], false as soon as an operand is [NaN]. *)
Definition le (a b : Number) : bool :=
  match a, b with
  | NaN, _ | _, NaN => false
  | NegInfinity, _ => true
  | _, Infinity => true
  | Infinity, _ => false
  | _, NegInfinity => false
  | Finite x, Finite y => x <=? y
  end.

Record StoredBid := {
  bidderName : string;
  amount : Json;
  time : Z;
}.

(** The two checks on the amount, [auction.bids.push(newBid)] and
    [db.put], for a record read with start price [startPrice] and bids
    [bids]; the result is the bids of the record as the next [get]
    decodes it. *)
Definition placeBid (startPrice : Json) (bids : list StoredBid)
    (bidder : string) (amt : Number) (now' : Z) : outcome (list StoredBid) :=
  if le amt (to_number startPrice) then Throw (Error "Bid too low")
  else if match last bids with
          | Some highest => le amt (to_number (amount highest))
          | None => false
          end then
    Throw (Error "Bid must be higher than the current highest bid")
  else
    Ok (bids ++ [ {| bidderName := bidder; amount := stored amt;
                     time := now' |} ]).

End NonFinite.

(** A bid of the engine's records as the store holds it. *)
Definition stored_bid (b : Bid) : NonFinite.StoredBid :=
  {| NonFinite.bidderName := bidderName b;
     NonFinite.amount := NonFinite.JNumber (amount b);
     NonFinite.time := time b |}.

(** ** Timer firing and runs of the engine *)

(** A scheduled callback comes due: the runtime takes it off its table and
    runs [() => this.endAuction(target)]. *)
Definition fireTimer (timer : nat) (s : Service) : Service :=
  match list_find (λ t, handle t = timer) (pending s) with
  | Some (_, t) => (endAuction (target t) (clearTimeout timer s)).2
  | None => s
  end.

(** The events that drive one service instance: the four operations bound
    for peers and the console, and a timer coming due. *)
Inductive Op :=
  | CreateAuction (auctionId : string) (now : Z)
      (item0 : string) (startPrice0 durationSeconds : Z)
  | PlaceBid (now0 now now' : Z) (auctionId bidder : string) (amt : Z)
  | GetAuction (now : Z) (auctionId : string)
  | EndAuction (auctionId : string)
  | TimerFires (timer : nat).

Definition run (o : Op) (s : Service) : Service :=
  match o with
  | CreateAuction auctionId now item0 startPrice0 durationSeconds =>
      (createAuction auctionId now item0 startPrice0 durationSeconds s).2
  | PlaceBid now0 now now' auctionId bidder amt =>
      (placeBid now0 now now' auctionId bidder amt s).2
  | GetAuction now auctionId => (getAuction now auctionId s).2
  | EndAuction auctionId => (endAuction auctionId s).2
  | TimerFires timer => fireTimer timer s
  end.

(** [crypto.randomUUID()] yields an identifier no record is stored under. *)
Definition fresh (o : Op) (s : Service) : Prop :=
  match o with
  | CreateAuction auctionId _ _ _ _ => db s !! auctionId = None
  | _ => True
  end.

Inductive reachable : Service → Prop :=
  | reachable_init : reachable init
  | reachable_run o s : reachable s → fresh o s → reachable (run o s).

(** ** Predicates on records and on the timer table *)

(** [prev < x1 < x2 < ...] *)
Fixpoint increasing_from (prev : Z) (l : list Z) : bool :=
  match l with
  | [] => true
  | x :: l' => (prev <? x) && increasing_from x l'
  end.

(** The amounts of the bids rise strictly, starting above [startPrice]. *)
Definition bids_ok (a : Auction) : bool :=
  increasing_from (startPrice a) (amount <$> bids a).

(** The winner fields of an ended record name its last bid. *)
Definition winner_ok (a : Auction) : Prop :=
  status a = Ended →
  match last (bids a) with
  | Some b => winner a = Val (bidderName b) ∧ winningBid a = Val (amount b)
  | None => winner a = Null ∧ winningBid a = Null
  end.

(** The scheduled callbacks that will end [auctionId]. *)
Definition pending_for (auctionId : string) (s : Service) : list Timeout :=
  filter (λ t, target t = auctionId) (pending s).

(** The bids of a record, as the specification words their order. *)
Definition strictly_increasing_bids (a : Auction) : Prop :=
  ∀ i j b b', bids a !! i = Some b → bids a !! j = Some b' → (i < j)%nat →
    amount b < amount b'.

Definition bids_above_start (a : Auction) : Prop :=
  ∀ b, b ∈ bids a → startPrice a < amount b.

Definition bids_in_order (a : Auction) : Prop :=
  strictly_increasing_bids a ∧ bids_above_start a.

(** Scheduled callbacks only target stored auctions, one each at most. *)
Definition timers_ok (s : Service) : Prop :=
  (∀ t, t ∈ pending s → is_Some (db s !! target t))
  ∧ (∀ auctionId, (length (pending_for auctionId s) ≤ 1)%nat).

(** ** How an operation may change a stored record *)

(** A record found under a key after an operation, against what was
    stored there before: untouched, newly created, ended, or extended by
    one accepted bid. *)
Inductive evolves (old : option Auction) (a' : Auction) : Prop :=
  | evolves_same : old = Some a' → evolves old a'
  | evolves_created : bids a' = [] → status a' = Active → evolves old a'
  | evolves_ended a :
      old = Some a → status a = Active → a' = ended a → evolves old a'
  | evolves_bid a b :
      old = Some a → status a = Active →
      startPrice a < amount b →
      (∀ highest, last (bids a) = Some highest → amount highest < amount b) →
      a' = push_bid b a → evolves old a'.

(** ** Interleaved [placeBid] calls

    A call to [placeBid] suspends once, at [await this.getAuction(...)];
    the store is read before the suspension and written after it. Calls in
    flight advance one segment at a time, in any order. *)

Record Call := {
  call_auctionId : string;
  call_bidder : string;
  call_amount : Z;
}.

Inductive Task :=
  | Called (c : Call)                      (* invoked, nothing read yet *)
  | Loaded (c : Call) (got : Got)          (* [getAuction] has resolved *)
  | Settled (c : Call) (r : outcome bool)  (* the promise is settled *).

Definition in_flight (t : Task) : bool :=
  match t with
  | Loaded _ _ => true
  | _ => false
  end.

(** Run the next segment of a task; [now] is the clock during it. *)
Definition advance (now : Z) (t : Task) (s : Service) : Task * Service :=
  match t with
  | Called c =>
      let '(got, s') := getAuction now (call_auctionId c) s in
      (Loaded c got, s')
  | Loaded c got =>
      let '(r, s') :=
        placeBid_resume now now
          (call_auctionId c) (call_bidder c) (call_amount c) got s in
      (Settled c r, s')
  | Settled _ _ => (t, s)
  end.

(** A schedule names, step by step, the task that advances and the time. *)
Fixpoint interleave (schedule : list (nat * Z)) (tasks : list Task)
    (s : Service) : list Task * Service :=
  match schedule with
  | [] => (tasks, s)
  | (i, now) :: schedule' =>
      match tasks !! i with
      | Some t =>
          let '(t', s') := advance now t s in
          interleave schedule' (<[i := t']> tasks) s'
      | None => interleave schedule' tasks s
      end
  end.

(** The bid a call appends when it is accepted at time [now]. *)
Definition bid_of (c : Call) (now : Z) : Bid :=
  {| bidderName := call_bidder c; amount := call_amount c; time := now |}.

(** ** Well-formed create parameters

    What the specification asks of the parameters of a create request: a
    non-empty item, a positive start price, a positive whole number of
    seconds. *)
Definition valid_create_params (item0 : string) (startPrice0 durationSeconds : Z)
  : Prop :=
  item0 ≠ "" ∧ 0 < startPrice0 ∧ 0 < durationSeconds.

(** ** Example runs *)

(** The scenario of the specification: a vase at start price 10 for one
    second, one bid of 15 by Alice half a second in. *)

Definition vase_created : Service :=
  (createAuction "a1" 0 "Vase" 10 1 init).2.

Definition vase_bid : Service :=
  (placeBid 500 500 500 "a1" "Alice" 15 vase_created).2.

Definition vase_ended : Service := (endAuction "a1" vase_bid).2.

Definition vase_active_record : Auction :=
  {| item := "Vase"; startPrice := 10; startTime := 0; endTime := 1000;
     bids := [ {| bidderName := "Alice"; amount := 15; time := 500 |} ];
     status := Active; winner := Unset; winningBid := Unset |}.

Definition vase_ended_record : Auction :=
  {| item := "Vase"; startPrice := 10; startTime := 0; endTime := 1000;
     bids := [ {| bidderName := "Alice"; amount := 15; time := 500 |} ];
     status := Ended; winner := Val "Alice"; winningBid := Val 15 |}.


Definition bob_call : Call :=
  {| call_auctionId := "a1"; call_bidder := "Bob"; call_amount := 20 |}.

Definition carol_call : Call :=
  {| call_auctionId := "a1"; call_bidder := "Carol"; call_amount := 30 |}.

(** A handler over integer parameters that halves its argument and raises
    on an odd one, counting its calls in the state. *)
Definition halve : RPC.Handler Z nat := λ ps calls,
  match ps with
  | [x] => if Z.even x then (Ok (x / 2), S calls)
           else (Throw (Error "odd"), S calls)
  | _ => (Throw (Error "arity"), S calls)
  end.

Definition peer : RPC.t Z nat := RPC.respond "halve" halve RPC.create.

(** ** Runs of several events *)

(** One event of the engine, run to completion before the next starts,
    with a fresh identifier when it creates. *)
Definition step (s s' : Service) : Prop :=
  ∃ o, fresh o s ∧ s' = run o s.

(** What an event can make of a stored record: nothing, the ended record,
    or the record with one more bid, the last two only of an active one. *)
Definition grows (a a' : Auction) : Prop :=
  a' = a ∨ (status a = Active ∧ (a' = ended a ∨ ∃ b, a' = push_bid b a)).

(** The fields of a record that identify the auction. *)
Definition same_auction (a a' : Auction) : Prop :=
  item a' = item a ∧ startPrice a' = startPrice a
  ∧ startTime a' = startTime a ∧ endTime a' = endTime a.

(** The bid of a call to [placeBid] that read the clock as [now']. *)
Definition bid (bidder : string) (amt now' : Z) : Bid :=
  {| bidderName := bidder; amount := amt; time := now' |}.

(** What the timer table and the runtime's scheduled callbacks have to do
    with each other and with the store: a scheduled callback targets a
    stored auction that is still active and its handle is the table's
    entry for that auction; every entry of the table is the handle of a
    scheduled callback for that auction; no two scheduled callbacks share
    a handle. *)
Definition timers_live (s : Service) : Prop :=
  (∀ t, t ∈ pending s →
     (∃ a, db s !! target t = Some a ∧ status a = Active)
     ∧ auctionTimers s !! target t = Some (handle t)
     ∧ (handle t < nextTimer s)%nat)
  ∧ (∀ auctionId timer, auctionTimers s !! auctionId = Some timer →
       ∃ t, t ∈ pending s ∧ handle t = timer ∧ target t = auctionId)
  ∧ NoDup (handle <$> pending s).

(** The records a [placeBid] call in flight holds are in order. *)
Definition task_in_order (t : Task) : Prop :=
  match t with
  | Loaded _ (GotAuction a) => bids_in_order a
  | _ => True
  end.

(** ** Startup: [restoreAuctionTimers] *)

(** [this.db.createReadStream()]: the stored entries, in the order of
    their keys. *)
Definition createReadStream (s : Service) : list (string * Auction) :=
  merge_sort (λ e1 e2, String.le e1.1 e2.1) (map_to_list (db s)).

(** The body of the loop for one entry. [clock key] is the pair of clock
    reads made for the entry of [key]: the one of the test and the one of
    the delay. *)
Definition restore_entry (clock : string → Z * Z) (s : Service)
    (entry : string * Auction) : Service :=
  let '(key, auction) := entry in
  if bool_decide (status auction = Active) && (endTime auction >? (clock key).1)
  then setAuctionTimer key (endTime auction - (clock key).2) s
  else s.

Definition restoreAuctionTimers (clock : string → Z * Z) (s : Service)
  : Service :=
  foldl (restore_entry clock) s (createReadStream s).

(** A new process over a persisted store: the constructor leaves the
    timer table empty, nothing is scheduled yet. *)
Definition constructed (store : gmap string Auction) : Service :=
  {| db := store; puts := []; auctionTimers := ∅; pending := [];
     nextTimer := 0 |}.

(** The test of [restoreAuctionTimers] on a record. *)
Definition restorable (clock : string → Z * Z) (key : string) (a : Auction)
  : Prop :=
  status a = Active ∧ (clock key).1 < endTime a.

(** ** Both directions of an [RPC] object

    An [RPC] object listens to the ['data'] events of its connection with
    [handleMessage], from its constructor on, and with one more listener
    for every call to [request] whose reply has not come. *)

Module Endpoint.
Section Endpoint.
(** [V] is the type of JSON values, [S] the state the handlers act on. *)
Context {V S : Type}.

(** A frame on the connection, as the peer wrote it: the object of a
    request, with [method], [params] and [id], or that of a reply, with
    [id] and [result] or [error]. *)
Inductive Frame :=
  | RequestFrame (r : RPC.Request V)
  | ReplyFrame (r : RPC.Response V).

Definition frame_id (f : Frame) : string :=
  match f with
  | RequestFrame r => RPC.id r
  | ReplyFrame r => RPC.resp_id r
  end.

(** How the promise of a [request] is settled: [resolve(result)], with
    [None] when [result] is [undefined], or [reject(new Error(error))]. *)
Inductive Settlement :=
  | Resolved (result : option V)
  | Rejected (e : exn).

Record t := {
  rpc : RPC.t V S;                      (* the handlers, the replies written *)
  requested : list (RPC.Request V);     (* the requests written, oldest first *)
  waiting : list string;                (* ids of the listeners of [request] *)
  settled : list (string * Settlement); (* the promises settled, oldest first *)
}.

Definition create : t :=
  {| rpc := RPC.create; requested := []; waiting := []; settled := [] |}.

(** [request(method, ...params)], with [uuid] the identifier drawn. *)
Definition request (uuid m : string) (ps : list V) (e : t) : t :=
  {| rpc := rpc e;
     requested := requested e ++
       [ {| RPC.method := m; RPC.params := ps; RPC.id := uuid |} ];
     waiting := waiting e ++ [uuid];
     settled := settled e |}.

(** What a listener of [request] does with a frame that bears its id: it
    destructures [result] and [error] and rejects when [error] is truthy.
    A request frame has neither field; an empty [error] is falsy. *)
Definition settlement (f : Frame) : Settlement :=
  match f with
  | RequestFrame _ => Resolved None
  | ReplyFrame r =>
      match RPC.response r with
      | RPC.Result result => Resolved (Some result)
      | RPC.ErrorReply error =>
          if decide (error = "") then Resolved None
          else Rejected (Error error)
      end
  end.

(** [handleMessage] on any frame: a reply frame has no [method], so the
    lookup in [handlers] finds nothing. *)
Definition handleFrame (f : Frame) (r : RPC.t V S) (s : S) : RPC.t V S * S :=
  match f with
  | RequestFrame msg => RPC.handleMessage msg r s
  | ReplyFrame reply =>
      (RPC.sendResponse (RPC.resp_id reply)
         (RPC.ErrorReply "Method not found") r, s)
  end.

(** A ['data'] event: [handleMessage] runs, then the listeners of
    [request]; those whose id is the frame's leave and settle their
    promise. *)
Definition onData (f : Frame) (e : t) (s : S) : t * S :=
  let '(r', s') := handleFrame f (rpc e) s in
  ({| rpc := r';
      requested := requested e;
      waiting := filter (λ i, i ≠ frame_id f) (waiting e);
      settled := settled e ++
        ((λ i, (i, settlement f)) <$>
           filter (λ i, i = frame_id f) (waiting e)) |}, s').

(** The frames an endpoint wrote between two of its states. *)
Definition written_since (before after : t) : list Frame :=
  (RequestFrame <$> drop (length (requested before)) (requested after))
  ++ (ReplyFrame <$>
        drop (length (RPC.written (rpc before))) (RPC.written (rpc after))).

(** Two endpoints on the two ends of one connection, and the frames on
    their way to each. *)
Record Link := {
  near : t; near_state : S;
  far : t; far_state : S;
  to_near : list Frame;
  to_far : list Frame;
}.

(** The next frame on its way to the near end arrives. *)
Definition deliver_near (l : Link) : Link :=
  match to_near l with
  | [] => l
  | f :: rest =>
      let '(e', s') := onData f (near l) (near_state l) in
      {| near := e'; near_state := s';
         far := far l; far_state := far_state l;
         to_near := rest;
         to_far := to_far l ++ written_since (near l) e' |}
  end.

Definition deliver_far (l : Link) : Link :=
  match to_far l with
  | [] => l
  | f :: rest =>
      let '(e', s') := onData f (far l) (far_state l) in
      {| near := near l; near_state := near_state l;
         far := e'; far_state := s';
         to_near := to_near l ++ written_since (far l) e';
         to_far := rest |}
  end.

(** Deliveries in a given order: [true] for the near end. *)
Definition deliveries (order : list bool) (l : Link) : Link :=
  foldl (λ l (side : bool), if side then deliver_near l else deliver_far l)
    l order.

Definition in_flight (l : Link) : nat := length (to_near l) + length (to_far l).
End Endpoint.
Arguments Frame : clear implicits.
Arguments Settlement : clear implicits.
Arguments t : clear implicits.
Arguments Link : clear implicits.
End Endpoint.

(** ** The validators of the console (class [CLI])

    A JS string is the list of its UTF-16 code units. *)

Module CLI.

(** The code units [trim] and [parseInt] skip: the white space and line
    terminators of ECMAScript (TAB, LF, VT, FF, CR, SP, NBSP, U+1680,
    U+2000 to U+200A, U+2028, U+2029, U+202F, U+205F, U+3000, U+FEFF). *)
Definition is_white_space (c : N) : bool :=
  (N.eqb c 9 || N.eqb c 10 || N.eqb c 11 || N.eqb c 12 || N.eqb c 13
   || N.eqb c 32 || N.eqb c 160 || N.eqb c 5760
   || (N.leb 8192 c && N.leb c 8202)
   || N.eqb c 8232 || N.eqb c 8233 || N.eqb c 8239 || N.eqb c 8287
   || N.eqb c 12288 || N.eqb c 65279)%bool.

Fixpoint trimStart (input : list N) : list N :=
  match input with
  | c :: rest => if is_white_space c then trimStart rest else input
  | [] => []
  end.

Definition trimEnd (input : list N) : list N :=
  reverse (trimStart (reverse input)).

(** [input.trim()] *)
Definition trim (input : list N) : list N := trimEnd (trimStart input).

(** The object a validator returns: [{ isValid: true, value }] or
    [{ isValid: false, error }]. *)
Inductive Validation (A : Type) :=
  | Valid (value : A)
  | Invalid (error : string).
Arguments Valid {A} value.
Arguments Invalid {A} error.

Definition nonEmptyString (input : list N) : Validation (list N) :=
  if decide (trim input = []) then
    Invalid "Input cannot be empty. Please try again."
  else Valid (trim input).

(** A decimal digit, ["0"] to ["9"]. *)
Definition digit (c : N) : option Z :=
  if (N.leb 48 c && N.leb c 57)%bool then Some (Z.of_N c - 48) else None.

(** The value of the longest run of digits at the start of [input],
    continuing from [acc]. *)
Fixpoint digits_value (acc : Z) (input : list N) : Z :=
  match input with
  | c :: rest =>
      match digit c with
      | Some d => digits_value (acc * 10 + d) rest
      | None => acc
      end
  | [] => acc
  end.

(** [parseInt(input, 10)]: white space is skipped, then an optional sign,
    then the digits up to the first code unit that is none; [None] is
    [NaN], returned when no digit is found there. The result is the
    integer read; the number JS returns is the double nearest to it. *)
Definition parseInt (input : list N) : option Z :=
  let trimmed := trimStart input in
  let '(sign, unsigned) :=
    match trimmed with
    | c :: rest =>
        if N.eqb c 45 then (-1, rest)           (* "-" *)
        else if N.eqb c 43 then (1, rest)       (* "+" *)
        else (1, trimmed)
    | [] => (1, [])
    end in
  match unsigned with
  | c :: _ =>
      match digit c with
      | Some _ => Some (sign * digits_value 0 unsigned)
      | None => None
      end
  | [] => None
  end.

Definition choice (input : list N) : Validation Z :=
  match parseInt input with
  | Some num =>
      if (num <? 1) || (num >? 5) then
        Invalid "Please enter a number between 1 and 5."
      else Valid num
  | None => Invalid "Please enter a number between 1 and 5."
  end.

(** What the console shows: the query of [rl.question] and the lines of
    [console.log]. *)
Inductive Output :=
  | Question (query : string)
  | Log (line : string).

(** [getValidInput(prompt, validator)] over the lines the user will
    type: the loop asks, validates, and logs the error of a rejected
    line. [None] when the lines run out: the loop is still waiting. *)
Fixpoint getValidInput {A} (prompt : string)
    (validator : list N → Validation A) (lines : list (list N))
  : list Output * option (A * list (list N)) :=
  match lines with
  | [] => ([Question prompt], None)
  | input :: rest =>
      match validator input with
      | Valid value => ([Question prompt], Some (value, rest))
      | Invalid error =>
          let '(out, r) := getValidInput prompt validator rest in
          (Question prompt :: Log error :: out, r)
      end
  end.

(** The code units of a string of ASCII characters. *)
Definition units (s : string) : list N :=
  Ascii.N_of_ascii <$> String.list_ascii_of_string s.
End CLI.

(** * Properties of the request multiplexer *)

Module RPCSpec.
Import RPC.

Lemma respond_registers {V S} (m : string) (h : Handler V S) (rpc : t V S) :
  handlers (respond m h rpc) !! m = Some h.
Proof. unfold respond; simpl. apply lookup_insert_eq. Qed.

Lemma respond_keeps_others {V S} (m m' : string) (h : Handler V S)
    (rpc : t V S) :
  m ≠ m' → handlers (respond m h rpc) !! m' = handlers rpc !! m'.
Proof. intros Hne. unfold respond; simpl. by apply lookup_insert_ne. Qed.

(** C9. An inbound [{method, params, id}] whose method is registered gets
    the bound handler applied to [params]; the multiplexer writes
    [{id, result}] when the handler returns and [{id, error: message}] when
    it raises, and carries on with the state the handler left. A method
    that is not registered gets [{id, error: "Method not found"}] and no
    handler runs. Exactly one frame is written in each case. *)
Theorem handleMessage_replies {V S} (rpc : t V S) (msg : Request V) (s : S) :
  (∀ handler result s',
      handlers rpc !! method msg = Some handler →
      handler (params msg) s = (Ok result, s') →
      handleMessage msg rpc s =
        ({| handlers := handlers rpc;
            written := written rpc ++
              [ {| resp_id := id msg; response := Result result |} ] |}, s'))
  ∧ (∀ handler e s',
      handlers rpc !! method msg = Some handler →
      handler (params msg) s = (Throw e, s') →
      handleMessage msg rpc s =
        ({| handlers := handlers rpc;
            written := written rpc ++
              [ {| resp_id := id msg;
                   response := ErrorReply (message e) |} ] |}, s'))
  ∧ (handlers rpc !! method msg = None →
      handleMessage msg rpc s =
        ({| handlers := handlers rpc;
            written := written rpc ++
              [ {| resp_id := id msg;
                   response := ErrorReply "Method not found" |} ] |}, s)).
Proof.
  unfold handleMessage, sendResponse.
  destruct (handlers rpc !! method msg) as [h|] eqn:Hh.
  - split; [|split]; [| |discriminate].
    + intros handler result s' [= <-] Hrun. by rewrite Hrun.
    + intros handler e s' [= <-] Hrun. by rewrite Hrun.
  - split; [|split]; [discriminate|discriminate|done].
Qed.

Lemma handleMessage_replies_witness :
  handleMessage {| method := "halve"; params := [10]; id := "r1" |} peer 0%nat
    = ({| handlers := handlers peer;
          written := [ {| resp_id := "r1"; response := Result 5 |} ] |}, 1%nat)
  ∧ handleMessage {| method := "halve"; params := [7]; id := "r2" |} peer 0%nat
    = ({| handlers := handlers peer;
          written := [ {| resp_id := "r2"; response := ErrorReply "odd" |} ] |},
       1%nat)
  ∧ handleMessage {| method := "nope"; params := []; id := "r3" |} peer 0%nat
    = ({| handlers := handlers peer;
          written :=
            [ {| resp_id := "r3";
                 response := ErrorReply "Method not found" |} ] |}, 0%nat).
Proof.
  split; [|split].
  - apply (proj1 (handleMessage_replies peer
      {| method := "halve"; params := [10]; id := "r1" |} 0%nat) halve);
      [apply respond_registers | reflexivity].
  - apply (proj1 (proj2 (handleMessage_replies peer
      {| method := "halve"; params := [7]; id := "r2" |} 0%nat)) halve
      (Error "odd")); [apply respond_registers | reflexivity].
  - apply (proj2 (proj2 (handleMessage_replies peer
      {| method := "nope"; params := []; id := "r3" |} 0%nat))).
    vm_compute. reflexivity.
Defined.

End RPCSpec.

(** * Properties of the auction state machine *)

Example vase_bid_stored : db vase_bid !! "a1" = Some vase_active_record.
Proof. vm_compute. reflexivity. Qed.

Example vase_ended_stored : db vase_ended !! "a1" = Some vase_ended_record.
Proof. vm_compute. reflexivity. Qed.

(** ** Each operation, case by case *)

Section Operations.
Implicit Types (s : Service) (a : Auction) (auctionId bidder : string).

Lemma endAuction_absent s auctionId :
  db s !! auctionId = None →
  endAuction auctionId s = (Throw (TypeError null_value_message), s).
Proof. intros H. unfold endAuction. by rewrite H. Qed.

Lemma endAuction_ended s auctionId a :
  db s !! auctionId = Some a → status a = Ended →
  endAuction auctionId s = (Ok a, s).
Proof.
  intros H Hst. unfold endAuction. rewrite H.
  case_decide as Hd; [done|]. by rewrite Hst in Hd.
Qed.

Lemma endAuction_active s auctionId a :
  db s !! auctionId = Some a → status a = Active →
  (endAuction auctionId s).1 = Ok (ended a)
  ∧ db (endAuction auctionId s).2 = <[auctionId := ended a]> (db s)
  ∧ puts (endAuction auctionId s).2 = puts s ++ [(auctionId, ended a)].
Proof.
  intros H Hst. unfold endAuction. rewrite H.
  case_decide as Hd; [done|]. simpl.
  by destruct (auctionTimers s !! auctionId).
Qed.


Lemma getAuction_current s now auctionId a :
  db s !! auctionId = Some a → status a = Ended ∨ now ≤ endTime a →
  getAuction now auctionId s = (GotAuction a, s).
Proof.
  intros H Hc. unfold getAuction. rewrite H.
  destruct Hc as [Hst | Hle].
  - rewrite bool_decide_eq_false_2; [done|]. by rewrite Hst.
  - replace (now >? endTime a) with false by lia.
    by rewrite andb_false_r.
Qed.

Lemma getAuction_expired s now auctionId a :
  db s !! auctionId = Some a → status a = Active → endTime a < now →
  getAuction now auctionId s = (GotUndefined, (endAuction auctionId s).2).
Proof.
  intros H Hst Hlt. unfold getAuction. rewrite H.
  rewrite bool_decide_eq_true_2 by done.
  replace (now >? endTime a) with true by lia. simpl.
  by destruct (endAuction auctionId s).
Qed.



(** A read never hands out a record that is active past its deadline. *)
Lemma getAuction_never_stale s now auctionId a :
  (getAuction now auctionId s).1 = GotAuction a →
  status a = Ended ∨ now ≤ endTime a.
Proof.
  unfold getAuction. destruct (db s !! auctionId) as [a0|]; [|done].
  destruct (bool_decide (status a0 = Active)) eqn:Hact;
    destruct (now >? endTime a0) eqn:Hnow; simpl.
  - by destruct (endAuction auctionId s).
  - intros [= <-]. right. lia.
  - intros [= <-]. left. apply bool_decide_eq_false in Hact.
    by destruct (status a0).
  - intros [= <-]. right. lia.
Qed.





End Operations.

(** ** Ending an auction that has ended *)

(** C10. When the record stored under [auctionId] is already ended,
    [endAuction] returns that record and leaves the whole service as it
    was: the stored records are the same and no [put] is added to the
    ones made so far. *)
Theorem endAuction_ended_writes_nothing (s : Service) (auctionId : string)
    (a : Auction) :
  db s !! auctionId = Some a → status a = Ended →
  endAuction auctionId s = (Ok a, s)
  ∧ db (endAuction auctionId s).2 = db s
  ∧ puts (endAuction auctionId s).2 = puts s.
Proof.
  intros H Hst. by rewrite (endAuction_ended s auctionId a).
Qed.

Lemma endAuction_ended_writes_nothing_witness :
  endAuction "a1" vase_ended = (Ok vase_ended_record, vase_ended)
  ∧ db (endAuction "a1" vase_ended).2 = db vase_ended
  ∧ puts (endAuction "a1" vase_ended).2 = puts vase_ended.
Proof.
  apply (endAuction_ended_writes_nothing vase_ended "a1" vase_ended_record).
  - vm_compute. reflexivity.
  - reflexivity.
Defined.

(** ** Ending an auction that does not exist *)

(** C6. With no record under the identifier, [endAuction] reads
    [auctionNode.value] of the [null] the store returned before it tests
    for absence: the promise is rejected with a [TypeError], not with the
    error "Auction not found". *)
Theorem endAuction_missing_type_error :
  db init !! "missing" = None
  ∧ endAuction "missing" init = (Throw (TypeError null_value_message), init)
  ∧ (endAuction "missing" init).1 ≠ Throw (Error "Auction not found").
Proof. split; [|split]; [done|done|discriminate]. Qed.

(** ** Reading an auction past its deadline *)

(** C1. The vase is stored as active with deadline 1000; read at time
    1100, [getAuction] resolves to [undefined]. The end transition it
    started is carried out on the store, but its record is not what the
    read returns. *)
Theorem getAuction_expired_undefined :
  db vase_bid !! "a1" = Some vase_active_record
  ∧ getAuction 1100 "a1" vase_bid = (GotUndefined, vase_ended)
  ∧ db vase_ended !! "a1" = Some vase_ended_record.
Proof. split; [|split]; vm_compute; reflexivity. Qed.

(** ** Bidding past the deadline *)

(** C4. The vase is stored as active with deadline 1000; a bid of 20 at
    time 1100 is rejected with "Auction not found" although the record
    exists, neither with "Auction has ended" nor with "Auction is not
    active". *)
Theorem placeBid_expired_not_found :
  db vase_bid !! "a1" = Some vase_active_record
  ∧ placeBid 1100 1100 1100 "a1" "Bob" 20 vase_bid
    = (Throw (Error "Auction not found"), vase_ended).
Proof. split; vm_compute; reflexivity. Qed.

(** ** Creating an auction *)

(** C7, as stated, fails: an empty item, a negative start price and a
    zero duration are persisted as they come. *)
Lemma createAuction_accepts_malformed :
  ¬ valid_create_params "" (-5) 0
  ∧ (createAuction "u1" 0 "" (-5) 0 init).1 = Ok "u1"
  ∧ db (createAuction "u1" 0 "" (-5) 0 init).2 !! "u1"
    = Some {| item := ""; startPrice := -5; startTime := 0; endTime := 0;
              bids := []; status := Active;
              winner := Unset; winningBid := Unset |}.
Proof.
  split; [|split].
  - intros (Hitem & _). by apply Hitem.
  - reflexivity.
  - vm_compute. reflexivity.
Qed.

(** C7, amended. [createAuction] checks none of its parameters: whatever
    the item, and whatever integers the start price and the duration are,
    an empty item, a start price or a duration that is not positive
    included, it succeeds with the fresh identifier, stores under it an
    active record with no bids, start time [now] and end time
    [now + durationSeconds * 1000] by a single [put], leaves the other
    records alone, and schedules one timer for the identifier,
    [durationSeconds * 1000] ahead. The clock, the start price, the delay
    and the end time are taken to be safe integers, for which the doubles
    of the code carry these very values. *)
Theorem createAuction_persists (s : Service) (auctionId : string) (now : Z)
    (item0 : string) (startPrice0 durationSeconds : Z) :
  safe_integer now → safe_integer startPrice0 →
  safe_integer (durationSeconds * 1000) →
  safe_integer (now + durationSeconds * 1000) →
  let auction :=
    {| item := item0; startPrice := startPrice0;
       startTime := now; endTime := now + durationSeconds * 1000;
       bids := []; status := Active; winner := Unset; winningBid := Unset |} in
  let s' := (createAuction auctionId now item0 startPrice0 durationSeconds s).2 in
  (createAuction auctionId now item0 startPrice0 durationSeconds s).1
    = Ok auctionId
  ∧ db s' !! auctionId = Some auction
  ∧ (∀ other, other ≠ auctionId → db s' !! other = db s !! other)
  ∧ puts s' = puts s ++ [(auctionId, auction)]
  ∧ auctionTimers s' !! auctionId = Some (nextTimer s)
  ∧ pending s' = pending s ++
      [ {| handle := nextTimer s; target := auctionId;
           delay := durationSeconds * 1000 |} ].
Proof.
  intros _ _ _ _. simpl. repeat split.
  - apply lookup_insert_eq.
  - intros other Hne. by apply lookup_insert_ne.
  - apply lookup_insert_eq.
Qed.

Lemma createAuction_persists_witness :
  let auction :=
    {| item := ""; startPrice := -5;
       startTime := 0; endTime := 0 + 0 * 1000;
       bids := []; status := Active; winner := Unset; winningBid := Unset |} in
  let s' := (createAuction "u1" 0 "" (-5) 0 vase_bid).2 in
  (createAuction "u1" 0 "" (-5) 0 vase_bid).1 = Ok "u1"
  ∧ db s' !! "u1" = Some auction
  ∧ (∀ other, other ≠ "u1" → db s' !! other = db vase_bid !! other)
  ∧ puts s' = puts vase_bid ++ [("u1", auction)]
  ∧ auctionTimers s' !! "u1" = Some (nextTimer vase_bid)
  ∧ pending s' = pending vase_bid ++
      [ {| handle := nextTimer vase_bid; target := "u1";
           delay := 0 * 1000 |} ].
Proof.
  apply (createAuction_persists vase_bid "u1" 0 "" (-5) 0);
    unfold safe_integer; lia.
Defined.

(** ** How the operations change the stored records *)

Section Evolution.
Implicit Types (s : Service) (a : Auction) (k auctionId : string).

Lemma endAuction_evolves s auctionId k a' :
  db (endAuction auctionId s).2 !! k = Some a' → evolves (db s !! k) a'.
Proof.
  destruct (db s !! auctionId) as [a|] eqn:Ha.
  - destruct (status a) eqn:Hst.
    + destruct (endAuction_active s auctionId a Ha Hst) as (_ & -> & _).
      destruct (decide (auctionId = k)) as [->|Hne].
      * rewrite lookup_insert_eq. intros [= <-].
        by apply (evolves_ended _ _ a).
      * rewrite lookup_insert_ne by done. by apply evolves_same.
    + rewrite (endAuction_ended s auctionId a Ha Hst). by apply evolves_same.
  - rewrite (endAuction_absent s auctionId Ha). by apply evolves_same.
Qed.

Lemma getAuction_state s now auctionId :
  (getAuction now auctionId s).2 = s
  ∨ (getAuction now auctionId s).2 = (endAuction auctionId s).2.
Proof.
  unfold getAuction. destruct (db s !! auctionId) as [a|]; [|by left].
  destruct (_ && _); [right|by left].
  by destruct (endAuction auctionId s).
Qed.

Lemma getAuction_evolves s now auctionId k a' :
  db (getAuction now auctionId s).2 !! k = Some a' → evolves (db s !! k) a'.
Proof.
  destruct (getAuction_state s now auctionId) as [-> | ->].
  - by apply evolves_same.
  - apply endAuction_evolves.
Qed.

(** What [getAuction] resolves to, when it is a record, is the stored
    record, and nothing was written. *)
Lemma getAuction_record s now auctionId a :
  (getAuction now auctionId s).1 = GotAuction a →
  db s !! auctionId = Some a ∧ (getAuction now auctionId s).2 = s.
Proof.
  unfold getAuction. destruct (db s !! auctionId) as [a0|]; [|done].
  destruct (_ && _).
  - by destruct (endAuction auctionId s).
  - by intros [= ->].
Qed.

(** The three ways a call to [placeBid] can leave the service. *)
Lemma placeBid_state s now0 now now' auctionId bidder amt :
  let r := placeBid now0 now now' auctionId bidder amt s in
  (r.2 = s ∧ ∃ e, r.1 = Throw e)
  ∨ (r.2 = (endAuction auctionId s).2 ∧ ∃ e, r.1 = Throw e)
  ∨ (∃ a, db s !! auctionId = Some a ∧ status a = Active
        ∧ startPrice a < amt
        ∧ (∀ highest, last (bids a) = Some highest → amount highest < amt)
        ∧ r = (Ok true,
               db_put auctionId
                 (push_bid
                    {| bidderName := bidder; amount := amt; time := now' |}
                    a) s)).
Proof.
  simpl. unfold placeBid.
  destruct (getAuction now0 auctionId s) as [got s1] eqn:Hget.
  assert (Hs1 : s1 = s ∨ s1 = (endAuction auctionId s).2).
  { pose proof (getAuction_state s now0 auctionId) as H.
    by rewrite Hget in H. }
  destruct got as [a| |]; simpl.
  - pose proof (getAuction_record s now0 auctionId a) as H.
    rewrite Hget in H. simpl in H.
    destruct (H eq_refl) as [Ha ->]. clear H Hs1.
    case_decide as Hd; [left; eauto|].
    assert (Hst : status a = Active) by (by destruct (status a); [|destruct Hd]).
    destruct (now >? endTime a); [left; eauto|].
    destruct (amt <=? startPrice a) eqn:Hlow; [left; eauto|].
    assert (Habove : startPrice a < amt) by lia.
    destruct (last (bids a)) as [highest|] eqn:Hlast.
    + destruct (amt <=? amount highest) eqn:Hhi; [left; eauto|].
      right; right. exists a. split_and!; try done.
      intros h Hh. rewrite Hlast in Hh. simplify_eq. lia.
    + right; right. exists a. split_and!; try done.
      intros h Hh. by rewrite Hlast in Hh.
  - destruct Hs1 as [-> | ->]; [left|right; left]; eauto.
  - destruct Hs1 as [-> | ->]; [left|right; left]; eauto.
Qed.

Lemma placeBid_evolves s now0 now now' auctionId bidder amt k a' :
  db (placeBid now0 now now' auctionId bidder amt s).2 !! k = Some a' →
  evolves (db s !! k) a'.
Proof.
  destruct (placeBid_state s now0 now now' auctionId bidder amt)
    as [[-> _] | [[-> _] | (a & Ha & Hst & Hlow & Hhi & ->)]].
  - by apply evolves_same.
  - apply endAuction_evolves.
  - simpl. destruct (decide (auctionId = k)) as [->|Hne].
    + rewrite lookup_insert_eq. intros [= <-].
      by apply (evolves_bid _ _ a
        {| bidderName := bidder; amount := amt; time := now' |}).
    + rewrite lookup_insert_ne by done. by apply evolves_same.
Qed.

Lemma fireTimer_evolves s timer k a' :
  db (fireTimer timer s) !! k = Some a' → evolves (db s !! k) a'.
Proof.
  unfold fireTimer. destruct (list_find _ _) as [[i t]|].
  - intros H. by apply endAuction_evolves in H.
  - by apply evolves_same.
Qed.

Lemma run_evolves o s k a' :
  db (run o s) !! k = Some a' → evolves (db s !! k) a'.
Proof.
  destruct o; simpl.
  - destruct (decide (auctionId = k)) as [->|Hne].
    + rewrite lookup_insert_eq. intros [= <-]. by apply evolves_created.
    + rewrite lookup_insert_ne by done. by apply evolves_same.
  - apply placeBid_evolves.
  - apply getAuction_evolves.
  - apply endAuction_evolves.
  - apply fireTimer_evolves.
Qed.

(** A property of records that creation establishes and that ending and
    accepting a bid keep holds of every record an operation leaves, and
    so of every record of a reachable service. *)
Section RecordInvariant.
Variable P : Auction → Prop.
Hypothesis P_created : ∀ a, bids a = [] → status a = Active → P a.
Hypothesis P_ended : ∀ a, P a → status a = Active → P (ended a).
Hypothesis P_bid : ∀ a b,
  P a → status a = Active → startPrice a < amount b →
  (∀ highest, last (bids a) = Some highest → amount highest < amount b) →
  P (push_bid b a).

Lemma run_preserves o s :
  (∀ k a, db s !! k = Some a → P a) →
  ∀ k a, db (run o s) !! k = Some a → P a.
Proof using P_created P_ended P_bid.
  intros Hs k a' Hk.
  destruct (run_evolves o s k a' Hk) as [?|?|a ? ? ->|a b ? ? ? ? ->];
    eauto.
Qed.

Lemma reachable_records s :
  reachable s → ∀ k a, db s !! k = Some a → P a.
Proof using P_created P_ended P_bid.
  induction 1 as [|o s Hs IH Hfresh].
  - intros k a. simpl. by rewrite lookup_empty.
  - by apply run_preserves.
Qed.
End RecordInvariant.
End Evolution.

(** ** The order of the bids *)

Section BidOrder.
Implicit Types (l : list Z) (a : Auction).

Lemma increasing_from_spec prev l :
  increasing_from prev l = true ↔
  (∀ x, x ∈ l → prev < x)
  ∧ (∀ i j x y, l !! i = Some x → l !! j = Some y → (i < j)%nat → x < y).
Proof.
  revert prev. induction l as [|x l IH]; intros prev; simpl.
  - split; [|done]. intros _. split; [by intros ? ?%elem_of_nil|done].
  - rewrite andb_true_iff, IH, Z.ltb_lt. split.
    + intros (Hx & Hall & Hpairs). split.
      * intros y [->|Hy]%elem_of_cons; [done|].
        specialize (Hall y Hy). lia.
      * intros [|i] [|j] y z Hi Hj Hlt; simplify_eq/=; try lia.
        -- apply Hall. by eapply list_elem_of_lookup_2.
        -- apply (Hpairs i j); [done|done|lia].
    + intros (Hall & Hpairs). split_and!.
      * apply Hall. by left.
      * intros y [j Hj]%list_elem_of_lookup_1.
        by apply (Hpairs 0%nat (S j)); [..|lia].
      * intros i j y z Hi Hj Hlt.
        by apply (Hpairs (S i) (S j)); [..|lia].
Qed.

Lemma increasing_from_snoc prev l y :
  increasing_from prev (l ++ [y])
    = increasing_from prev l && (default prev (last l) <? y).
Proof.
  revert prev. induction l as [|x l IH]; intros prev; simpl.
  - by rewrite andb_true_r.
  - rewrite IH, andb_assoc.
    replace (default prev (last (x :: l))) with (default x (last l));
      [done|].
    destruct l as [|z l]; [reflexivity|].
    change (last (x :: z :: l)) with (last (z :: l)).
    destruct (last (z :: l)) eqn:Hlast; [reflexivity|].
    by apply last_None in Hlast.
Qed.

Lemma bids_ok_spec a : bids_ok a = true ↔ bids_in_order a.
Proof.
  unfold bids_ok, bids_in_order, strictly_increasing_bids, bids_above_start.
  rewrite increasing_from_spec. split.
  - intros [Hall Hpairs]. split.
    + intros i j b b' Hi Hj Hlt.
      apply (Hpairs i j); [| |done]; rewrite list_lookup_fmap.
      * by rewrite Hi.
      * by rewrite Hj.
    + intros b Hb. apply Hall. by apply list_elem_of_fmap_2.
  - intros [Hpairs Hall]. split.
    + intros x (b & -> & Hb)%list_elem_of_fmap. by apply Hall.
    + intros i j x y Hi Hj Hlt. rewrite list_lookup_fmap in Hi, Hj.
      destruct (bids a !! i) as [b|] eqn:Hbi; [|done].
      destruct (bids a !! j) as [b'|] eqn:Hbj; [|done].
      simplify_eq/=. by apply (Hpairs i j).
Qed.

Lemma bids_ok_created a : bids a = [] → bids_ok a = true.
Proof. intros H. unfold bids_ok. by rewrite H. Qed.

Lemma bids_ended a : bids (ended a) = bids a.
Proof. unfold ended. by destruct (last (bids a)). Qed.

Lemma status_ended a : status (ended a) = Ended.
Proof. unfold ended. by destruct (last (bids a)). Qed.

Lemma bids_ok_ended a : bids_ok a = true → bids_ok (ended a) = true.
Proof.
  unfold bids_ok. rewrite bids_ended.
  unfold ended. by destruct (last (bids a)).
Qed.

Lemma bids_ok_push a b :
  bids_ok a = true → startPrice a < amount b →
  (∀ highest, last (bids a) = Some highest → amount highest < amount b) →
  bids_ok (push_bid b a) = true.
Proof.
  unfold bids_ok. simpl. intros Hok Hlow Hhi.
  rewrite fmap_app. simpl. rewrite increasing_from_snoc, Hok, fmap_last.
  simpl. destruct (last (bids a)) as [highest|]; simpl.
  - specialize (Hhi highest eq_refl). lia.
  - lia.
Qed.

Lemma bids_in_order_run o s :
  (∀ k a, db s !! k = Some a → bids_in_order a) →
  ∀ k a, db (run o s) !! k = Some a → bids_in_order a.
Proof.
  apply run_preserves.
  - intros a Hb _. apply bids_ok_spec. by apply bids_ok_created.
  - intros a Ha _. apply bids_ok_spec, bids_ok_ended. by apply bids_ok_spec.
  - intros a b Ha _ Hlow Hhi.
    apply bids_ok_spec, bids_ok_push; [by apply bids_ok_spec|done..].
Qed.

Lemma endAuction_keeps_bids s auctionId k :
  bids <$> db (endAuction auctionId s).2 !! k = bids <$> db s !! k.
Proof.
  destruct (db s !! auctionId) as [a|] eqn:Ha.
  - destruct (status a) eqn:Hst.
    + destruct (endAuction_active s auctionId a Ha Hst) as (_ & -> & _).
      destruct (decide (auctionId = k)) as [->|Hne].
      * rewrite lookup_insert_eq, Ha. simpl. by rewrite bids_ended.
      * by rewrite lookup_insert_ne.
    + by rewrite (endAuction_ended s auctionId a Ha Hst).
  - by rewrite (endAuction_absent s auctionId Ha).
Qed.

Lemma getAuction_keeps_bids s now auctionId k :
  bids <$> db (getAuction now auctionId s).2 !! k = bids <$> db s !! k.
Proof.
  destruct (getAuction_state s now auctionId) as [-> | ->]; [done|].
  apply endAuction_keeps_bids.
Qed.
End BidOrder.

Lemma vase_bid_reachable : reachable vase_bid.
Proof.
  apply (reachable_run (PlaceBid 500 500 500 "a1" "Alice" 15)); [|exact I].
  apply (reachable_run (CreateAuction "a1" 0 "Vase" 10 1)); [|reflexivity].
  apply reachable_init.
Qed.

(** ** Bids that are not finite *)

(** On integer amounts the checks of [NonFinite.placeBid] are those of
    [placeBid_resume] on a record that is active and before its deadline,
    with the same error, and the accepted bid is stored as it is. *)
Lemma placeBid_finite (s : Service) (now now' : Z)
    (auctionId bidder : string) (amt : Z) (a : Auction) :
  status a = Active → now ≤ endTime a →
  NonFinite.placeBid (NonFinite.JNumber (startPrice a))
    (stored_bid <$> bids a) bidder (NonFinite.Finite amt) now'
  = match (placeBid_resume now now' auctionId bidder amt (GotAuction a) s).1
    with
    | Ok _ => Ok (stored_bid <$> (bids a ++ [bid bidder amt now']))
    | Throw e => Throw e
    end.
Proof.
  intros Hst Hnow. unfold NonFinite.placeBid, placeBid_resume.
  rewrite decide_False by (by intros []).
  replace (now >? endTime a) with false by lia. simpl.
  destruct (amt <=? startPrice a); [done|].
  rewrite fmap_last. destruct (last (bids a)) as [highest|]; simpl.
  - destruct (amt <=? amount highest); [done|]. by rewrite fmap_app.
  - by rewrite fmap_app.
Qed.

(** C3. The vase starts at 10. A bid of 50, then a bid of [Infinity],
    then a bid of 11 are accepted one after the other: [Infinity] passes
    both checks and is stored as [null], which the check of the next bid
    reads as 0. The record ends up with the amounts 50, [null], 11. *)
Theorem placeBid_infinity_then_lower :
  let alice := {| NonFinite.bidderName := "Alice";
                  NonFinite.amount := NonFinite.JNumber 50;
                  NonFinite.time := 500 |} in
  let bob := {| NonFinite.bidderName := "Bob";
                NonFinite.amount := NonFinite.JNull;
                NonFinite.time := 600 |} in
  let carol := {| NonFinite.bidderName := "Carol";
                  NonFinite.amount := NonFinite.JNumber 11;
                  NonFinite.time := 700 |} in
  NonFinite.placeBid (NonFinite.JNumber 10) []
    "Alice" (NonFinite.Finite 50) 500 = Ok [alice]
  ∧ NonFinite.placeBid (NonFinite.JNumber 10) [alice]
      "Bob" NonFinite.Infinity 600 = Ok [alice; bob]
  ∧ NonFinite.placeBid (NonFinite.JNumber 10) [alice; bob]
      "Carol" (NonFinite.Finite 11) 700 = Ok [alice; bob; carol]
  ∧ NonFinite.placeBid (NonFinite.JNumber 10) [alice]
      "Carol" (NonFinite.Finite 11) 700
    = Throw (Error "Bid must be higher than the current highest bid").
Proof. split_and!; reflexivity. Qed.

(** ** The order of the bids, for finite amounts *)

(** X21. With amounts that are finite numbers (the integers of the
    embedding) and operations that each run to completion before the next
    starts, the bids of every stored record rise strictly in amount and
    all lie strictly above the start price: in every service state
    reached from an empty service by creating auctions, placing bids,
    reading, ending and timers coming due, and after each of these
    operations from any state where it holds; reading and ending change
    no record's bids. *)
Theorem bids_strictly_increasing :
  (∀ s, reachable s → ∀ k a, db s !! k = Some a → bids_in_order a)
  ∧ (∀ o s, (∀ k a, db s !! k = Some a → bids_in_order a) →
       ∀ k a, db (run o s) !! k = Some a → bids_in_order a)
  ∧ (∀ s now auctionId k,
       bids <$> db (getAuction now auctionId s).2 !! k = bids <$> db s !! k)
  ∧ (∀ s auctionId k,
       bids <$> db (endAuction auctionId s).2 !! k = bids <$> db s !! k).
Proof.
  split_and!.
  - induction 1 as [|o s Hs IH Hfresh].
    + intros k a. simpl. by rewrite lookup_empty.
    + by apply bids_in_order_run.
  - apply bids_in_order_run.
  - apply getAuction_keeps_bids.
  - apply endAuction_keeps_bids.
Qed.

Lemma bids_strictly_increasing_witness :
  bids_in_order
    {| item := "Vase"; startPrice := 10; startTime := 0; endTime := 1000;
       bids := [bid "Alice" 15 500; bid "Bob" 20 600];
       status := Active; winner := Unset; winningBid := Unset |}.
Proof.
  apply (proj1 bids_strictly_increasing
           (run (PlaceBid 600 600 600 "a1" "Bob" 20) vase_bid)) with (k := "a1").
  - apply (reachable_run (PlaceBid 600 600 600 "a1" "Bob" 20));
      [apply vase_bid_reachable|exact I].
  - vm_compute. reflexivity.
Defined.

(** ** Ending twice *)

Section Winner.
Implicit Types (s : Service) (a : Auction).

Lemma winner_ok_ended a : winner_ok (ended a).
Proof.
  intros _. rewrite bids_ended. unfold ended.
  by destruct (last (bids a)).
Qed.

Lemma winner_ok_reachable s :
  reachable s → ∀ k a, db s !! k = Some a → winner_ok a.
Proof.
  apply reachable_records.
  - intros a _ Hst Hended. by rewrite Hst in Hended.
  - intros a _ _. apply winner_ok_ended.
  - intros a b _ Hst _ _ Hended. simpl in Hended. by rewrite Hst in Hended.
Qed.
End Winner.

(** C5. For a record stored in a reachable service, [endAuction] called
    twice in a row returns the same record both times; the second call
    leaves the service exactly as the first left it. That record is the
    one now stored; it is ended, has the bids the record had, and names
    the last bid's bidder and amount as winner and winning bid, or [null]
    for both when there are no bids. *)
Theorem endAuction_twice (s : Service) (auctionId : string) (a : Auction) :
  reachable s → db s !! auctionId = Some a →
  ∃ a',
    (endAuction auctionId s).1 = Ok a'
    ∧ endAuction auctionId (endAuction auctionId s).2
      = (Ok a', (endAuction auctionId s).2)
    ∧ db (endAuction auctionId s).2 !! auctionId = Some a'
    ∧ status a' = Ended
    ∧ bids a' = bids a
    ∧ match last (bids a') with
      | Some b => winner a' = Val (bidderName b) ∧ winningBid a' = Val (amount b)
      | None => winner a' = Null ∧ winningBid a' = Null
      end.
Proof.
  intros Hs Ha. destruct (status a) eqn:Hst.
  - destruct (endAuction_active s auctionId a Ha Hst) as (Hr & Hdb & _).
    assert (Hstored : db (endAuction auctionId s).2 !! auctionId
                      = Some (ended a)).
    { rewrite Hdb. apply lookup_insert_eq. }
    exists (ended a). split_and!.
    + done.
    + by apply endAuction_ended; [|apply status_ended].
    + done.
    + apply status_ended.
    + apply bids_ended.
    + by apply winner_ok_ended, status_ended.
  - rewrite (endAuction_ended s auctionId a Ha Hst). simpl.
    exists a. split_and!; try done.
    + by apply endAuction_ended.
    + by apply (winner_ok_reachable s Hs auctionId a Ha).
Qed.

Lemma endAuction_twice_witness :
  ∃ a',
    (endAuction "a1" vase_bid).1 = Ok a'
    ∧ endAuction "a1" (endAuction "a1" vase_bid).2
      = (Ok a', (endAuction "a1" vase_bid).2)
    ∧ db (endAuction "a1" vase_bid).2 !! "a1" = Some a'
    ∧ status a' = Ended
    ∧ bids a' = bids vase_active_record
    ∧ match last (bids a') with
      | Some b => winner a' = Val (bidderName b) ∧ winningBid a' = Val (amount b)
      | None => winner a' = Null ∧ winningBid a' = Null
      end.
Proof.
  apply (endAuction_twice vase_bid "a1" vase_active_record).
  - exact vase_bid_reachable.
  - vm_compute. reflexivity.
Defined.

(** ** The timer table *)

Section Timers.
Implicit Types (s : Service) (a : Auction) (k auctionId : string).

Lemma filter_sublist {A} (P : A → Prop) `{!∀ x, Decision (P x)}
    (l1 l2 : list A) :
  l1 `sublist_of` l2 → filter P l1 `sublist_of` filter P l2.
Proof.
  induction 1 as [|x l1 l2 _ IH|x l1 l2 _ IH]; [done|..];
    rewrite !filter_cons; case_decide; auto using sublist.
Qed.

Lemma endAuction_pending s auctionId :
  pending (endAuction auctionId s).2 `sublist_of` pending s.
Proof.
  unfold endAuction. destruct (db s !! auctionId) as [a|]; [|done].
  case_decide; [done|]. simpl.
  destruct (auctionTimers s !! auctionId); [|done].
  apply sublist_filter.
Qed.

Lemma endAuction_keeps_keys s auctionId k :
  is_Some (db s !! k) → is_Some (db (endAuction auctionId s).2 !! k).
Proof.
  intros Hk. destruct (db s !! auctionId) as [a|] eqn:Ha.
  - destruct (status a) eqn:Hst.
    + destruct (endAuction_active s auctionId a Ha Hst) as (_ & -> & _).
      rewrite lookup_insert_is_Some. destruct (decide (auctionId = k)); auto.
    + by rewrite (endAuction_ended s auctionId a Ha Hst).
  - by rewrite (endAuction_absent s auctionId Ha).
Qed.

Lemma run_keeps_keys o s k :
  is_Some (db s !! k) → is_Some (db (run o s) !! k).
Proof.
  intros Hk. destruct o; simpl.
  - rewrite lookup_insert_is_Some. destruct (decide (auctionId = k)); auto.
  - destruct (placeBid_state s now0 now now' auctionId bidder amt)
      as [[-> _] | [[-> _] | (a & _ & _ & _ & _ & ->)]].
    + done.
    + by apply endAuction_keeps_keys.
    + simpl. rewrite lookup_insert_is_Some.
      destruct (decide (auctionId = k)); auto.
  - destruct (getAuction_state s now auctionId) as [-> | ->];
      [done|by apply endAuction_keeps_keys].
  - by apply endAuction_keeps_keys.
  - unfold fireTimer. destruct (list_find _ _) as [[i t]|]; [|done].
    by apply endAuction_keeps_keys.
Qed.

(** Only [createAuction] schedules a callback; every other operation
    leaves the scheduled ones or takes some away. *)
Lemma run_pending o s :
  match o with
  | CreateAuction auctionId _ _ _ durationSeconds =>
      pending (run o s) = pending s ++
        [ {| handle := nextTimer s; target := auctionId;
             delay := durationSeconds * 1000 |} ]
  | _ => pending (run o s) `sublist_of` pending s
  end.
Proof.
  destruct o; simpl.
  - done.
  - destruct (placeBid_state s now0 now now' auctionId bidder amt)
      as [[-> _] | [[-> _] | (a & _ & _ & _ & _ & ->)]];
      [done|apply endAuction_pending|done].
  - destruct (getAuction_state s now auctionId) as [-> | ->];
      [done|apply endAuction_pending].
  - apply endAuction_pending.
  - unfold fireTimer. destruct (list_find _ _) as [[i t]|]; [|done].
    etrans; [apply endAuction_pending|]. apply sublist_filter.
Qed.

Lemma pending_for_none s auctionId :
  (∀ t, t ∈ pending s → is_Some (db s !! target t)) →
  db s !! auctionId = None → pending_for auctionId s = [].
Proof.
  intros Htargets Hnone. unfold pending_for.
  induction (pending s) as [|t l IH]; [done|].
  rewrite filter_cons. case_decide as Ht.
  - destruct (Htargets t) as [a Ha]; [by left|].
    rewrite Ht in Ha. by rewrite Hnone in Ha.
  - apply IH. intros t' Ht'. apply Htargets. by right.
Qed.

Lemma timers_ok_run o s : fresh o s → timers_ok s → timers_ok (run o s).
Proof.
  intros Hfresh [Htargets Hone].
  pose proof (run_pending o s) as Hp.
  destruct o as [auctionId now item0 sp d| | | |];
    try (split;
      [ intros t Ht; apply run_keeps_keys, Htargets;
          by eapply elem_of_sublist
      | intros k; etrans; [|apply (Hone k)];
          by apply sublist_length, filter_sublist ]).
  simpl in Hfresh. split.
  - intros t. rewrite Hp. intros [Ht|Ht]%elem_of_app.
    + by apply run_keeps_keys, Htargets.
    + apply list_elem_of_singleton in Ht as ->. simpl.
      by rewrite lookup_insert_eq.
  - intros k. unfold pending_for. rewrite Hp, filter_app, length_app.
    destruct (decide (k = auctionId)) as [->|Hne].
    + fold (pending_for auctionId s).
      rewrite (pending_for_none s auctionId Htargets Hfresh).
      rewrite filter_cons, decide_True by done. simpl. lia.
    + rewrite filter_cons, decide_False by (simpl; congruence).
      rewrite filter_nil. simpl. specialize (Hone k).
      unfold pending_for in Hone. lia.
Qed.

Lemma timers_ok_reachable s : reachable s → timers_ok s.
Proof.
  induction 1 as [|o s Hs IH Hfresh].
  - split; [by intros t ?%elem_of_nil|].
    intros auctionId. cbn. lia.
  - by apply timers_ok_run.
Qed.
End Timers.

(** C8, as stated, fails: arming a timer for the vase, whose timer from
    its creation is still pending, leaves both callbacks scheduled; the
    table only forgets the first handle. *)
Lemma setAuctionTimer_keeps_prior_timer :
  pending_for "a1" vase_created
    = [ {| handle := 0; target := "a1"; delay := 1000 |} ]
  ∧ pending_for "a1" (setAuctionTimer "a1" 400 vase_created)
    = [ {| handle := 0; target := "a1"; delay := 1000 |};
        {| handle := 1; target := "a1"; delay := 400 |} ]
  ∧ auctionTimers (setAuctionTimer "a1" 400 vase_created) !! "a1"
    = Some 1%nat.
Proof. split_and!; vm_compute; reflexivity. Qed.

(** C8, amended. [setAuctionTimer] schedules a callback that ends the
    auction after the given delay and makes its handle the table's entry
    for the identifier, in place of any earlier one; it cancels nothing,
    so the callbacks already scheduled, for this identifier too, stay
    scheduled, and those of the other identifiers are untouched. In the
    service states reached from an empty service by creating auctions
    under fresh identifiers, placing bids, reading, ending and timers
    coming due, each run to completion before the next, no identifier
    has two scheduled callbacks. Timers armed on another path, by
    [restoreAuctionTimers] or by a call of [setAuctionTimer] itself, are
    not within this bound. *)
Theorem setAuctionTimer_arms :
  (∀ s auctionId duration,
     let s' := setAuctionTimer auctionId duration s in
     let timeout :=
       {| handle := nextTimer s; target := auctionId; delay := duration |} in
     auctionTimers s' !! auctionId = Some (nextTimer s)
     ∧ (∀ other, other ≠ auctionId →
          auctionTimers s' !! other = auctionTimers s !! other)
     ∧ pending s' = pending s ++ [timeout]
     ∧ pending_for auctionId s' = pending_for auctionId s ++ [timeout]
     ∧ (∀ other, other ≠ auctionId →
          pending_for other s' = pending_for other s))
  ∧ (∀ s, reachable s →
       ∀ auctionId, (length (pending_for auctionId s) ≤ 1)%nat).
Proof.
  split.
  - intros s auctionId duration. simpl. split_and!.
    + apply lookup_insert_eq.
    + intros other Hne. by apply lookup_insert_ne.
    + done.
    + unfold pending_for. simpl. rewrite filter_app, filter_cons.
      by rewrite decide_True.
    + intros other Hne. unfold pending_for. simpl.
      rewrite filter_app, filter_cons, decide_False by (simpl; congruence).
      by rewrite filter_nil, app_nil_r.
  - intros s Hs. by apply timers_ok_reachable.
Qed.

Lemma setAuctionTimer_arms_witness :
  (length (pending_for "a1" vase_bid) ≤ 1)%nat.
Proof.
  apply (proj2 setAuctionTimer_arms vase_bid vase_bid_reachable "a1").
Defined.

(** ** Two bids at once *)

Section TwoCalls.
Implicit Types (s : Service) (a : Auction) (c : Call).




End TwoCalls.




(** * Further properties of the engine *)

(** ** Reads and bids around the deadline *)

(** X1. A read of an auction stored as active after its deadline resolves
    to [undefined] and starts [endAuction]; left to complete with no other
    call running meanwhile, that call makes one [put], of the ended
    record. A read started once it has completed, at any time, returns
    the ended record and writes nothing. *)
Theorem getAuction_after_expiry (s : Service) (now now' : Z)
    (auctionId : string) (a : Auction) :
  db s !! auctionId = Some a → status a = Active → endTime a < now →
  (getAuction now auctionId s).1 = GotUndefined
  ∧ puts (getAuction now auctionId s).2 = puts s ++ [(auctionId, ended a)]
  ∧ getAuction now' auctionId (getAuction now auctionId s).2
    = (GotAuction (ended a), (getAuction now auctionId s).2).
Proof.
  intros Ha Hst Hlt. rewrite (getAuction_expired s now auctionId a) by done.
  destruct (endAuction_active s auctionId a Ha Hst) as (_ & Hdb & Hputs).
  simpl. split_and!; [done|done|].
  apply getAuction_current; [|left; apply status_ended].
  rewrite Hdb. apply lookup_insert_eq.
Qed.

Lemma getAuction_after_expiry_witness :
  (getAuction 1100 "a1" vase_bid).1 = GotUndefined
  ∧ puts (getAuction 1100 "a1" vase_bid).2
    = puts vase_bid ++ [("a1", ended vase_active_record)]
  ∧ getAuction 5000 "a1" (getAuction 1100 "a1" vase_bid).2
    = (GotAuction (ended vase_active_record),
       (getAuction 1100 "a1" vase_bid).2).
Proof.
  apply (getAuction_after_expiry vase_bid 1100 5000 "a1" vase_active_record).
  - vm_compute. reflexivity.
  - reflexivity.
  - simpl. lia.
Defined.



(** X3. A bid that [placeBid] rejects never changes the bids of any
    record, and leaves the store as it was unless the call found the
    auction active past its deadline, in which case the store is the one
    [endAuction] leaves. *)
Theorem placeBid_rejected_keeps_bids (s : Service) (now0 now now' : Z)
    (auctionId bidder : string) (amt : Z) (e : exn) :
  (placeBid now0 now now' auctionId bidder amt s).1 = Throw e →
  (∀ k, bids <$> db (placeBid now0 now now' auctionId bidder amt s).2 !! k
        = bids <$> db s !! k)
  ∧ ((placeBid now0 now now' auctionId bidder amt s).2 = s
     ∨ (placeBid now0 now now' auctionId bidder amt s).2
       = (endAuction auctionId s).2).
Proof.
  intros He.
  destruct (placeBid_state s now0 now now' auctionId bidder amt)
    as [[Hs _] | [[Hs _] | (a & _ & _ & _ & _ & Hr)]].
  - rewrite Hs. auto.
  - rewrite Hs. split; [|by right].
    intros k. apply endAuction_keeps_bids.
  - rewrite Hr in He. discriminate He.
Qed.

Lemma placeBid_rejected_keeps_bids_witness :
  (∀ k, bids <$> db (placeBid 600 600 600 "a1" "Bob" 12 vase_bid).2 !! k
        = bids <$> db vase_bid !! k)
  ∧ ((placeBid 600 600 600 "a1" "Bob" 12 vase_bid).2 = vase_bid
     ∨ (placeBid 600 600 600 "a1" "Bob" 12 vase_bid).2
       = (endAuction "a1" vase_bid).2).
Proof.
  apply (placeBid_rejected_keeps_bids vase_bid 600 600 600 "a1" "Bob" 12
           (Error "Bid must be higher than the current highest bid")).
  vm_compute. reflexivity.
Defined.

(** ** What becomes of a stored record *)

Section Records.
Implicit Types (s : Service) (a : Auction) (k auctionId : string).

Lemma endAuction_record s auctionId k a :
  db s !! k = Some a →
  ∃ a', db (endAuction auctionId s).2 !! k = Some a' ∧ grows a a'.
Proof.
  intros Hk. destruct (db s !! auctionId) as [a0|] eqn:Ha.
  - destruct (status a0) eqn:Hst.
    + destruct (endAuction_active s auctionId a0 Ha Hst) as (_ & -> & _).
      destruct (decide (auctionId = k)) as [->|Hne].
      * rewrite lookup_insert_eq. simplify_eq.
        exists (ended a). split; [done|]. right. auto.
      * rewrite lookup_insert_ne by done. exists a. split; [done|by left].
    + rewrite (endAuction_ended s auctionId a0 Ha Hst).
      exists a. split; [done|by left].
  - rewrite (endAuction_absent s auctionId Ha). exists a. split; [done|by left].
Qed.

Lemma run_record o s k a :
  fresh o s → db s !! k = Some a →
  ∃ a', db (run o s) !! k = Some a' ∧ grows a a'.
Proof.
  intros Hfresh Hk. destruct o; simpl in *.
  - exists a. split; [|by left].
    rewrite lookup_insert_ne; [done|]. intros ->. by rewrite Hfresh in Hk.
  - destruct (placeBid_state s now0 now now' auctionId bidder amt)
      as [[-> _] | [[-> _] | (a0 & Ha0 & Hst & _ & _ & ->)]].
    + exists a. split; [done|by left].
    + by apply endAuction_record.
    + simpl. destruct (decide (auctionId = k)) as [->|Hne].
      * rewrite lookup_insert_eq. simplify_eq. eexists. split; [done|].
        right. eauto.
      * rewrite lookup_insert_ne by done. exists a. split; [done|by left].
  - destruct (getAuction_state s now auctionId) as [-> | ->].
    + exists a. split; [done|by left].
    + by apply endAuction_record.
  - by apply endAuction_record.
  - unfold fireTimer. destruct (list_find _ _) as [[i t]|].
    + by apply (endAuction_record (clearTimeout timer s)).
    + exists a. split; [done|by left].
Qed.

Lemma grows_same_auction a a' : grows a a' → same_auction a a'.
Proof.
  intros [->|[_ [->|[b ->]]]]; [done| |done].
  unfold ended. by destruct (last (bids a)).
Qed.

Lemma grows_bids a a' : grows a a' → bids a `prefix_of` bids a'.
Proof.
  intros [->|[_ [->|[b ->]]]]; [done| |].
  - by rewrite bids_ended.
  - simpl. by apply prefix_app_r.
Qed.
End Records.

(** X4. As long as no two calls overlap, an ended auction stays as it
    is: through any run of creations under fresh identifiers, bids,
    reads, ends and timers coming due, each run to completion (the
    [endAuction] a read starts included) before the next starts, the
    record stored for it is the same record, with the same winner. *)
Theorem ended_is_final (s s' : Service) (k : string) (a : Auction) :
  rtc step s s' → db s !! k = Some a → status a = Ended →
  db s' !! k = Some a.
Proof.
  induction 1 as [s|s s1 s' (o & Hfresh & ->) _ IH]; [done|].
  intros Hk Hst. apply IH; [|done].
  destruct (run_record o s k a Hfresh Hk) as (a' & Hk' & [->|[Hact _]]);
    [done|]. by rewrite Hst in Hact.
Qed.

Lemma ended_is_final_witness :
  db (run (PlaceBid 600 600 600 "a1" "Bob" 20)
        (run (GetAuction 2000 "a1") vase_ended)) !! "a1"
  = Some vase_ended_record.
Proof.
  apply (ended_is_final vase_ended).
  - eapply rtc_l; [exists (GetAuction 2000 "a1"); split; [exact I|done]|].
    apply rtc_once. exists (PlaceBid 600 600 600 "a1" "Bob" 20).
    split; [exact I|done].
  - vm_compute. reflexivity.
  - reflexivity.
Defined.

(** X5. As long as no two calls overlap, no event removes a record or
    takes a bid from it: through any run of creations under fresh
    identifiers, bids, reads, ends and timers coming due, each run to
    completion (the [endAuction] a read starts included) before the next
    starts, a stored auction stays stored under its identifier with the
    same item, start price, start time and end time, and its bids so far
    remain, in the same order, the first bids of the record. *)
Theorem records_persist (s s' : Service) (k : string) (a : Auction) :
  rtc step s s' → db s !! k = Some a →
  ∃ a', db s' !! k = Some a' ∧ same_auction a a'
        ∧ bids a `prefix_of` bids a'.
Proof.
  intros Hrun. revert a.
  induction Hrun as [s|s s1 s' (o & Hfresh & ->) _ IH]; intros a Hk.
  - exists a. by split_and!.
  - destruct (run_record o s k a Hfresh Hk) as (a1 & Hk1 & Hgrow).
    destruct (IH a1 Hk1) as (a' & Hk' & Hsame & Hpre).
    exists a'. split_and!; [done| |].
    + apply grows_same_auction in Hgrow.
      destruct Hgrow as (? & ? & ? & ?), Hsame as (? & ? & ? & ?).
      unfold same_auction. split_and!; congruence.
    + etrans; [by apply grows_bids|done].
Qed.

Lemma records_persist_witness :
  ∃ a', db (run (EndAuction "a1")
              (run (PlaceBid 600 600 600 "a1" "Bob" 20) vase_bid)) !! "a1"
        = Some a'
        ∧ same_auction vase_active_record a'
        ∧ bids vase_active_record `prefix_of` bids a'.
Proof.
  apply (records_persist vase_bid).
  - eapply rtc_l;
      [exists (PlaceBid 600 600 600 "a1" "Bob" 20); split; [exact I|done]|].
    apply rtc_once. exists (EndAuction "a1"). split; [exact I|done].
  - vm_compute. reflexivity.
Defined.

(** ** Timers and the auctions they end *)

Section LiveTimers.
Implicit Types (s : Service) (a : Auction) (k auctionId : string)
  (t : Timeout).

Lemma handle_inj (l : list Timeout) t1 t2 :
  NoDup (handle <$> l) → t1 ∈ l → t2 ∈ l → handle t1 = handle t2 → t1 = t2.
Proof.
  induction l as [|t l IH]; [by intros _ ?%elem_of_nil|].
  rewrite fmap_cons, NoDup_cons.
  intros [Hnotin Hnodup] [->|H1]%elem_of_cons [->|H2]%elem_of_cons Heq.
  - done.
  - destruct Hnotin. rewrite Heq. by apply list_elem_of_fmap_2.
  - destruct Hnotin. rewrite <- Heq. by apply list_elem_of_fmap_2.
  - by apply IH.
Qed.

Lemma endAuction_active_state s auctionId a :
  db s !! auctionId = Some a → status a = Active →
  (endAuction auctionId s).2 =
    match auctionTimers s !! auctionId with
    | Some timer =>
        timers_delete auctionId
          (clearTimeout timer (db_put auctionId (ended a) s))
    | None => db_put auctionId (ended a) s
    end.
Proof.
  intros Ha Hst. unfold endAuction. rewrite Ha.
  case_decide as Hd; [done|]. simpl.
  by destruct (auctionTimers s !! auctionId).
Qed.

(** The auction under [auctionId] is ended and its timer taken away. *)
Lemma live_after_end s s' auctionId a timer :
  timers_live s →
  auctionTimers s !! auctionId = Some timer →
  db s' = <[auctionId := ended a]> (db s) →
  auctionTimers s' = delete auctionId (auctionTimers s) →
  pending s' = filter (λ t, handle t ≠ timer) (pending s) →
  nextTimer s' = nextTimer s →
  timers_live s'.
Proof.
  intros (Hpend & Htable & Hnodup) Htimer Hdb Hmap Hp Hnext.
  assert (Hother : ∀ t, t ∈ pending s → handle t ≠ timer →
                        target t ≠ auctionId).
  { intros t Ht Hne Heq. destruct (Hpend t Ht) as (_ & Hentry & _).
    rewrite Heq, Htimer in Hentry. by simplify_eq. }
  split_and!.
  - intros t. rewrite Hp, list_elem_of_filter. intros [Hne Ht].
    destruct (Hpend t Ht) as (Hact & Hentry & Hlt).
    rewrite Hdb, Hmap, Hnext.
    rewrite lookup_insert_ne, lookup_delete_ne by (symmetry; by apply Hother).
    done.
  - intros k h. rewrite Hmap, lookup_delete_Some. intros [Hne Hk].
    destruct (Htable k h Hk) as (t & Ht & Hh & Hk').
    exists t. split_and!; [|done..].
    rewrite Hp, list_elem_of_filter. split; [|done].
    intros Heq. destruct (Htable auctionId timer Htimer) as (t0 & Ht0 & Hh0 & Hk0).
    assert (t = t0) as -> by (apply (handle_inj (pending s)); congruence).
    congruence.
  - rewrite Hp. eapply sublist_NoDup; [done|].
    apply fmap_sublist, sublist_filter.
Qed.

(** A record is replaced by one of the same status. *)
Lemma live_put s auctionId a a' :
  timers_live s → db s !! auctionId = Some a → status a' = status a →
  timers_live (db_put auctionId a' s).
Proof.
  intros (Hpend & Htable & Hnodup) Ha Hst. split_and!; [|done..].
  intros t Ht. destruct (Hpend t Ht) as ((a0 & Ha0 & Hact) & Hentry & Hlt).
  split_and!; [|done..]. simpl.
  destruct (decide (auctionId = target t)) as [->|Hne].
  - rewrite lookup_insert_eq. exists a'. split; [done|].
    simplify_eq. congruence.
  - rewrite lookup_insert_ne by done. eauto.
Qed.

(** A record without a timer is replaced. *)
Lemma live_put_untimed s auctionId a' :
  timers_live s → auctionTimers s !! auctionId = None →
  timers_live (db_put auctionId a' s).
Proof.
  intros (Hpend & Htable & Hnodup) Hnone. split_and!; [|done..].
  intros t Ht. destruct (Hpend t Ht) as (Hact & Hentry & Hlt).
  split_and!; [|done..]. simpl.
  rewrite lookup_insert_ne; [done|]. intros ->. by rewrite Hnone in Hentry.
Qed.

Lemma endAuction_live s auctionId :
  timers_live s → timers_live (endAuction auctionId s).2.
Proof.
  intros Hlive. destruct (db s !! auctionId) as [a|] eqn:Ha.
  - destruct (status a) eqn:Hst.
    + rewrite (endAuction_active_state s auctionId a Ha Hst).
      destruct (auctionTimers s !! auctionId) as [timer|] eqn:Htimer.
      * by apply (live_after_end s _ auctionId a timer).
      * by apply live_put_untimed.
    + by rewrite (endAuction_ended s auctionId a Ha Hst).
  - by rewrite (endAuction_absent s auctionId Ha).
Qed.

Lemma fireTimer_fired s t :
  timers_live s → t ∈ pending s →
  ∃ a, db s !! target t = Some a ∧ status a = Active
       ∧ fireTimer (handle t) s
         = timers_delete (target t)
             (clearTimeout (handle t)
                (db_put (target t) (ended a) (clearTimeout (handle t) s))).
Proof.
  intros (Hpend & Htable & Hnodup) Ht.
  destruct (Hpend t Ht) as ((a & Ha & Hact) & Hentry & _).
  exists a. split_and!; [done..|].
  unfold fireTimer.
  destruct (list_find _ _) as [[i t']|] eqn:Hfind.
  - apply list_find_Some in Hfind as (Hi & Hh & _).
    assert (t' = t) as ->.
    { apply (handle_inj (pending s)); [done| |done..].
      by eapply list_elem_of_lookup_2. }
    rewrite (endAuction_active_state _ (target t) a) by done.
    simpl. by rewrite Hentry.
  - apply list_find_None in Hfind.
    rewrite Forall_forall in Hfind. by destruct (Hfind t Ht).
Qed.

Lemma filter_iff_in {A} (P Q : A → Prop)
    `{!∀ x, Decision (P x), !∀ x, Decision (Q x)} (l : list A) :
  (∀ x, x ∈ l → P x ↔ Q x) → filter P l = filter Q l.
Proof.
  induction l as [|x l IH]; [done|]. intros Hiff.
  assert (IH' : filter P l = filter Q l).
  { apply IH. intros y Hy. apply Hiff. by right. }
  assert (Hx : P x ↔ Q x) by (apply Hiff; by left).
  rewrite !filter_cons, IH'.
  destruct (decide (P x)) as [HP|HP], (decide (Q x)) as [HQ|HQ];
    [done| | |done]; tauto.
Qed.

Lemma filter_twice {A} (P : A → Prop) `{!∀ x, Decision (P x)} (l : list A) :
  filter P (filter P l) = filter P l.
Proof. rewrite list_filter_filter. apply list_filter_iff. tauto. Qed.

Lemma fireTimer_live s timer : timers_live s → timers_live (fireTimer timer s).
Proof.
  intros Hlive.
  destruct (list_find (λ t, handle t = timer) (pending s)) as [[i t]|] eqn:Hf.
  - pose proof Hf as Hfind.
    apply list_find_Some in Hf as (Hi & <- & _).
    assert (Ht : t ∈ pending s) by (by eapply list_elem_of_lookup_2).
    destruct (fireTimer_fired s t Hlive Ht) as (a & Ha & Hact & ->).
    destruct Hlive as (Hpend & Htable & Hnodup).
    destruct (Hpend t Ht) as (_ & Hentry & _).
    apply (live_after_end s _ (target t) a (handle t)); try done.
    simpl. apply filter_twice.
  - unfold fireTimer. by rewrite Hf.
Qed.

Lemma createAuction_live s auctionId now item0 startPrice0 durationSeconds :
  db s !! auctionId = None → timers_live s →
  timers_live
    (createAuction auctionId now item0 startPrice0 durationSeconds s).2.
Proof.
  intros Hfresh (Hpend & Htable & Hnodup).
  assert (Hold : ∀ t, t ∈ pending s → target t ≠ auctionId).
  { intros t Ht Heq. destruct (Hpend t Ht) as ((a & Ha & _) & _).
    rewrite Heq, Hfresh in Ha. done. }
  unfold timers_live. simpl. split_and!.
  - intros t [Ht|Ht]%elem_of_app.
    + destruct (Hpend t Ht) as (Hact & Hentry & Hlt).
      rewrite !lookup_insert_ne by (symmetry; by apply Hold).
      split_and!; [done|done|lia].
    + apply list_elem_of_singleton in Ht as ->. simpl.
      rewrite !lookup_insert_eq. split_and!; [eauto|done|lia].
  - intros k h. rewrite lookup_insert_Some.
    intros [[<- <-]|[Hne Hk]].
    + exists {| handle := nextTimer s; target := auctionId;
                delay := durationSeconds * 1000 |}.
      split; [|done]. apply elem_of_app. right. by left.
    + destruct (Htable k h Hk) as (t & Ht & Hh & Hk').
      exists t. split; [|done]. apply elem_of_app. by left.
  - rewrite fmap_app, NoDup_app. split_and!; [done| |].
    + intros h (t & -> & Ht)%list_elem_of_fmap Hnew.
      simpl in Hnew. apply list_elem_of_singleton in Hnew.
      destruct (Hpend t Ht) as (_ & _ & Hlt). lia.
    + simpl. apply NoDup_singleton.
Qed.

Lemma run_live o s : fresh o s → timers_live s → timers_live (run o s).
Proof.
  intros Hfresh Hlive. destruct o; simpl in *.
  - by apply createAuction_live.
  - destruct (placeBid_state s now0 now now' auctionId bidder amt)
      as [[-> _] | [[-> _] | (a & Ha & Hst & _ & _ & ->)]].
    + done.
    + by apply endAuction_live.
    + simpl. by apply (live_put s auctionId a).
  - destruct (getAuction_state s now auctionId) as [-> | ->];
      [done|by apply endAuction_live].
  - by apply endAuction_live.
  - by apply fireTimer_live.
Qed.
End LiveTimers.

Lemma reachable_live (s : Service) : reachable s → timers_live s.
Proof.
  induction 1 as [|o s Hs IH Hfresh].
  - split_and!.
    + by intros t ?%elem_of_nil.
    + intros k h. simpl. by rewrite lookup_empty.
    + simpl. apply NoDup_nil_2.
  - by apply run_live.
Qed.

(** X6. In every state of the engine reached from an empty service, each
    scheduled callback targets a stored auction that is still active, the
    timer table holds exactly the handles of the scheduled callbacks, each
    under the auction it will end, and no handle is scheduled twice. So an
    ended auction has no callback left, and a callback never comes due for
    a missing or an ended auction. *)
Theorem timers_stay_live (s : Service) : reachable s → timers_live s.
Proof.
  induction 1 as [|o s Hs IH Hfresh]; [|by apply run_live].
  split_and!.
  - by intros t ?%elem_of_nil.
  - intros k h. simpl. by rewrite lookup_empty.
  - simpl. apply NoDup_nil_2.
Qed.

Lemma timers_stay_live_witness : timers_live vase_bid.
Proof. apply (timers_stay_live vase_bid). exact vase_bid_reachable. Defined.

(** X7. When a scheduled callback comes due in a reachable state, its
    auction is stored and active; the callback ends it exactly as
    [endAuction] would: the record stored afterwards is the ended one, the
    table has no entry for the auction and no callback for it stays
    scheduled. *)
Theorem fireTimer_ends_auction (s : Service) (t : Timeout) :
  reachable s → t ∈ pending s →
  ∃ a, db s !! target t = Some a ∧ status a = Active
       ∧ db (fireTimer (handle t) s) = <[target t := ended a]> (db s)
       ∧ db (fireTimer (handle t) s) = db (endAuction (target t) s).2
       ∧ auctionTimers (fireTimer (handle t) s) !! target t = None
       ∧ pending_for (target t) (fireTimer (handle t) s) = [].
Proof.
  intros Hs Ht. pose proof (reachable_live s Hs) as Hlive.
  destruct (fireTimer_fired s t Hlive Ht) as (a & Ha & Hact & Hfire).
  pose proof (fireTimer_live s (handle t) Hlive) as (Hpend' & _ & _).
  exists a. split_and!; try done.
  - by rewrite Hfire.
  - rewrite Hfire. simpl.
    by destruct (endAuction_active s (target t) a Ha Hact) as (_ & -> & _).
  - rewrite Hfire. simpl. apply lookup_delete_eq.
  - apply elem_of_nil_inv. intros t'.
    unfold pending_for. rewrite list_elem_of_filter. intros [Htarget Ht'].
    destruct (Hpend' t' Ht') as (_ & Hentry & _).
    rewrite Htarget, Hfire in Hentry. simpl in Hentry.
    by rewrite lookup_delete_eq in Hentry.
Qed.

Lemma fireTimer_ends_auction_witness :
  ∃ a, db vase_bid !! "a1" = Some a ∧ status a = Active
       ∧ db (fireTimer 0 vase_bid) = <["a1" := ended a]> (db vase_bid)
       ∧ db (fireTimer 0 vase_bid) = db (endAuction "a1" vase_bid).2
       ∧ auctionTimers (fireTimer 0 vase_bid) !! "a1" = None
       ∧ pending_for "a1" (fireTimer 0 vase_bid) = [].
Proof.
  apply (fireTimer_ends_auction vase_bid
           {| handle := 0; target := "a1"; delay := 1000 |}).
  - exact vase_bid_reachable.
  - vm_compute. by left.
Defined.

(** X8. Ending an active auction in a reachable state cancels its timer:
    afterwards the table has no entry for it and no callback for it is
    scheduled, while the callbacks of every other auction stay scheduled
    as they were. *)
Theorem endAuction_cancels_timer (s : Service) (auctionId : string)
    (a : Auction) :
  reachable s → db s !! auctionId = Some a → status a = Active →
  auctionTimers (endAuction auctionId s).2 !! auctionId = None
  ∧ pending_for auctionId (endAuction auctionId s).2 = []
  ∧ (∀ other, other ≠ auctionId →
       pending_for other (endAuction auctionId s).2 = pending_for other s
       ∧ auctionTimers (endAuction auctionId s).2 !! other
         = auctionTimers s !! other).
Proof.
  intros Hs Ha Hact. pose proof (reachable_live s Hs) as Hlive.
  pose proof (endAuction_live s auctionId Hlive) as (Hpend' & _ & _).
  destruct Hlive as (Hpend & Htable & Hnodup).
  assert (Hnone : auctionTimers (endAuction auctionId s).2 !! auctionId = None).
  { rewrite (endAuction_active_state s auctionId a Ha Hact).
    destruct (auctionTimers s !! auctionId) eqn:Htimer; simpl; [|done].
    apply lookup_delete_eq. }
  split_and!; [done| |].
  - apply elem_of_nil_inv. intros t'.
    unfold pending_for. rewrite list_elem_of_filter. intros [Htarget Ht'].
    destruct (Hpend' t' Ht') as (_ & Hentry & _).
    by rewrite Htarget, Hnone in Hentry.
  - intros other Hne. rewrite (endAuction_active_state s auctionId a Ha Hact).
    destruct (auctionTimers s !! auctionId) as [timer|] eqn:Htimer;
      simpl; [|done].
    split; [|by apply lookup_delete_ne].
    unfold pending_for. simpl. rewrite list_filter_filter.
    apply filter_iff_in. intros t Ht. split; [by intros [? _]|].
    intros Htarget. split; [done|]. intros Hh.
    destruct (Htable auctionId timer Htimer) as (t0 & Ht0 & Hh0 & Hk0).
    assert (t = t0) as -> by (apply (handle_inj (pending s)); congruence).
    congruence.
Qed.

Lemma endAuction_cancels_timer_witness :
  auctionTimers (endAuction "a1" vase_bid).2 !! "a1" = None
  ∧ pending_for "a1" (endAuction "a1" vase_bid).2 = []
  ∧ (∀ other, other ≠ "a1" →
       pending_for other (endAuction "a1" vase_bid).2
         = pending_for other vase_bid
       ∧ auctionTimers (endAuction "a1" vase_bid).2 !! other
         = auctionTimers vase_bid !! other).
Proof.
  apply (endAuction_cancels_timer vase_bid "a1" vase_active_record).
  - exact vase_bid_reachable.
  - vm_compute. reflexivity.
  - reflexivity.
Defined.

(** ** Creating, bidding and ending in a row *)





(** ** Overlapping bids and the order of the bids *)

Section Overlap.
Implicit Types (s : Service) (a : Auction) (tasks : list Task).

Lemma placeBid_resume_state now now' auctionId bidder amt got s :
  let r := placeBid_resume now now' auctionId bidder amt got s in
  r.2 = s
  ∨ ∃ a, got = GotAuction a ∧ status a = Active ∧ startPrice a < amt
       ∧ (∀ highest, last (bids a) = Some highest → amount highest < amt)
       ∧ r.2 = db_put auctionId (push_bid (bid bidder amt now') a) s.
Proof.
  simpl. destruct got as [a| |]; simpl; [|by left..].
  case_decide as Hd; [by left|].
  assert (Hst : status a = Active) by (by destruct (status a); [|destruct Hd]).
  destruct (now >? endTime a); [by left|].
  destruct (amt <=? startPrice a) eqn:Hlow; [by left|].
  destruct (last (bids a)) as [highest|] eqn:Hlast.
  - destruct (amt <=? amount highest) eqn:Hhi; [by left|].
    right. exists a. split_and!; try done; [lia|].
    intros h Hh. rewrite Hlast in Hh. simplify_eq. lia.
  - right. exists a. split_and!; try done; [lia|].
    intros h Hh. by rewrite Hlast in Hh.
Qed.

Lemma advance_in_order now t s :
  (∀ k a, db s !! k = Some a → bids_in_order a) → task_in_order t →
  (∀ k a, db (advance now t s).2 !! k = Some a → bids_in_order a)
  ∧ task_in_order (advance now t s).1.
Proof.
  intros Hs Ht. destruct t as [c|c got|c r]; simpl.
  - pose proof (bids_in_order_run (GetAuction now (call_auctionId c)) s Hs)
      as Hs'. simpl in Hs'.
    pose proof (getAuction_record s now (call_auctionId c)) as Hrec.
    destruct (getAuction now (call_auctionId c) s) as [got s']. simpl in *.
    split; [done|]. destruct got as [a| |]; [|done..].
    destruct (Hrec a eq_refl) as [Ha _]. by apply (Hs _ _ Ha).
  - pose proof (placeBid_resume_state now now (call_auctionId c)
                  (call_bidder c) (call_amount c) got s) as Hr.
    destruct (placeBid_resume _ _ _ _ _ _ _) as [r s']. simpl in *.
    split; [|done].
    destruct Hr as [-> | (a & -> & Hst & Hlow & Hhi & ->)]; [done|].
    intros k a'. simpl.
    destruct (decide (call_auctionId c = k)) as [->|Hne].
    + rewrite lookup_insert_eq. intros [= <-].
      apply bids_ok_spec, bids_ok_push; [by apply bids_ok_spec|done..].
    + rewrite lookup_insert_ne by done. apply Hs.
  - done.
Qed.
End Overlap.

(** X11. Overlapping bids can lose a bid but, with amounts that are
    finite numbers (the integers of the embedding), not the order of the
    bids: from a service whose records all have their bids in order,
    whatever calls to [placeBid] are in flight and however their two
    segments (the read, with the [endAuction] it may start run to
    completion; the checks and the write) are interleaved, the bids of
    every stored record still rise strictly and lie above the start
    price. *)
Theorem interleave_keeps_order (schedule : list (nat * Z))
    (tasks : list Task) (s : Service) :
  (∀ k a, db s !! k = Some a → bids_in_order a) →
  Forall task_in_order tasks →
  ∀ k a, db (interleave schedule tasks s).2 !! k = Some a → bids_in_order a.
Proof.
  revert tasks s. induction schedule as [|[i now] schedule IH];
    intros tasks s Hs Htasks; [done|].
  simpl. destruct (tasks !! i) as [t|] eqn:Hi; [|by apply IH].
  destruct (advance_in_order now t s Hs) as [Hs' Ht'].
  { by eapply Forall_lookup_1. }
  destruct (advance now t s) as [t' s']. simpl in *.
  apply IH; [done|]. by apply Forall_insert.
Qed.

Lemma interleave_keeps_order_witness :
  bids_in_order
    {| item := "Vase"; startPrice := 10; startTime := 0; endTime := 1000;
       bids := [bid "Alice" 15 500; bid_of carol_call 602];
       status := Active; winner := Unset; winningBid := Unset |}.
Proof.
  apply (interleave_keeps_order
           [(0%nat, 600); (1%nat, 600); (0%nat, 601); (1%nat, 602)]
           [Called bob_call; Called carol_call] vase_bid) with (k := "a1").
  - apply (bids_in_order_run (PlaceBid 500 500 500 "a1" "Alice" 15)).
    apply (bids_in_order_run (CreateAuction "a1" 0 "Vase" 10 1) init).
    intros k a. simpl. by rewrite lookup_empty.
  - by repeat constructor.
  - vm_compute. reflexivity.
Defined.

(** ** Startup *)

Section Restore.
Implicit Types (s : Service) (a : Auction) (k key : string)
  (clock : string → Z * Z) (l : list (string * Auction)).

Lemma createReadStream_elem s k a :
  (k, a) ∈ createReadStream s ↔ db s !! k = Some a.
Proof.
  unfold createReadStream. rewrite merge_sort_Permutation.
  apply elem_of_map_to_list.
Qed.

Lemma createReadStream_NoDup s : NoDup (createReadStream s).*1.
Proof.
  unfold createReadStream. rewrite merge_sort_Permutation.
  apply NoDup_fst_map_to_list.
Qed.

Lemma restore_entry_cases clock s key a :
  (restorable clock key a
   ∧ restore_entry clock s (key, a)
     = setAuctionTimer key (endTime a - (clock key).2) s)
  ∨ (¬ restorable clock key a ∧ restore_entry clock s (key, a) = s).
Proof.
  unfold restore_entry, restorable.
  destruct (bool_decide (status a = Active)) eqn:Hact; simpl.
  - apply bool_decide_eq_true in Hact.
    destruct (endTime a >? (clock key).1) eqn:Hlt; [left|right];
      (split; [|done]); [split; [done|lia]|]. intros [_ ?]. lia.
  - apply bool_decide_eq_false in Hact. right. split; [|done]. by intros [? _].
Qed.




(** A timer is set for a stored, active auction that has none. *)
Lemma setAuctionTimer_live s k a duration :
  timers_live s → db s !! k = Some a → status a = Active →
  auctionTimers s !! k = None →
  timers_live (setAuctionTimer k duration s).
Proof.
  intros (Hpend & Htable & Hnodup) Ha Hact Hnone.
  assert (Hold : ∀ t, t ∈ pending s → target t ≠ k).
  { intros t Ht Heq. destruct (Hpend t Ht) as (_ & Hentry & _).
    by rewrite Heq, Hnone in Hentry. }
  unfold timers_live. simpl. split_and!.
  - intros t [Ht|Ht]%elem_of_app.
    + destruct (Hpend t Ht) as (Hact' & Hentry & Hlt).
      rewrite lookup_insert_ne by (symmetry; by apply Hold).
      split_and!; [done|done|lia].
    + apply list_elem_of_singleton in Ht as ->. simpl.
      rewrite lookup_insert_eq. split_and!; [eauto|done|lia].
  - intros k' h. rewrite lookup_insert_Some.
    intros [[<- <-]|[Hne Hk]].
    + exists {| handle := nextTimer s; target := k; delay := duration |}.
      split; [|done]. apply elem_of_app. right. by left.
    + destruct (Htable k' h Hk) as (t & Ht & Hh & Hk').
      exists t. split; [|done]. apply elem_of_app. by left.
  - rewrite fmap_app, NoDup_app. split_and!; [done| |].
    + intros h (t & -> & Ht)%list_elem_of_fmap Hnew.
      simpl in Hnew. apply list_elem_of_singleton in Hnew.
      destruct (Hpend t Ht) as (_ & _ & Hlt). lia.
    + simpl. apply NoDup_singleton.
Qed.

Lemma restore_fold_live clock l s :
  NoDup l.*1 →
  (∀ k a, (k, a) ∈ l → db s !! k = Some a ∧ auctionTimers s !! k = None) →
  timers_live s → timers_live (foldl (restore_entry clock) s l).
Proof.
  revert s. induction l as [|[key a] l IH]; intros s; cbn [foldl]; [done|].
  rewrite fmap_cons, NoDup_cons. cbn [fst]. intros [Hnotin Hnodup] Hl Hlive.
  destruct (Hl key a) as [Ha Hnone]; [by left|].
  apply IH; [done| |].
  - intros k a' Hin. destruct (Hl k a') as [Ha' Hnone']; [by right|].
    assert (Hne : key ≠ k).
    { intros ->. apply Hnotin. by apply (list_elem_of_fmap_2 fst _ (k, a')). }
    destruct (restore_entry_cases clock s key a) as [[_ ->]|[_ ->]];
      [|done]. simpl. by rewrite lookup_insert_ne.
  - destruct (restore_entry_cases clock s key a) as [[[Hact _] ->]|[_ ->]];
      [|done]. by apply (setAuctionTimer_live s key a).
Qed.
End Restore.


(** X13. After a restart over any persisted store the timers are live
    again: every scheduled callback targets a stored active auction, the
    table holds exactly the scheduled handles, none twice; and this stays
    so through every event that follows. *)
Theorem restart_timers_live (clock : string → Z * Z)
    (store : gmap string Auction) (s : Service) :
  rtc step (restoreAuctionTimers clock (constructed store)) s →
  timers_live s.
Proof.
  intros Hrun. apply rtc_nsteps_1 in Hrun as [n Hrun].
  revert s Hrun. induction n as [|n IH]; intros s Hrun.
  2: { apply nsteps_inv_r in Hrun as (s1 & Hrun & (o & Hfresh & ->)).
       apply run_live; [done|]. by apply IH. }
  inversion Hrun; subst.
  - unfold restoreAuctionTimers. apply restore_fold_live.
    + apply createReadStream_NoDup.
    + by intros k a ?%createReadStream_elem.
    + split_and!.
      * by intros t ?%elem_of_nil.
      * intros k h. simpl. by rewrite lookup_empty.
      * simpl. apply NoDup_nil_2.
Qed.

Lemma restart_timers_live_witness :
  timers_live
    (run (PlaceBid 700 700 700 "a1" "Bob" 20)
       (restoreAuctionTimers (λ _, (600, 600)) (constructed (db vase_bid)))).
Proof.
  apply (restart_timers_live (λ _, (600, 600)) (db vase_bid)).
  apply rtc_once. exists (PlaceBid 700 700 700 "a1" "Bob" 20).
  split; [exact I|done].
Defined.

Example restart_rearms_vase :
  pending (restoreAuctionTimers (λ _, (600, 601)) (constructed (db vase_bid)))
  = [ {| handle := 0; target := "a1"; delay := 399 |} ].
Proof. vm_compute. reflexivity. Qed.

(** * Properties of an [RPC] object as requester and responder *)

Module EndpointSpec.
Import RPC Endpoint.

Section Requests.
Context {V S : Type}.
Implicit Types (e : Endpoint.t V S) (f : Frame V) (s : S).

Lemma filter_eq_NoDup (l : list string) (x : string) :
  NoDup l → x ∈ l → filter (λ i, i = x) l = [x].
Proof.
  induction l as [|y l IH]; [by intros _ ?%elem_of_nil|].
  rewrite NoDup_cons. intros [Hnotin Hnodup] Hx. rewrite filter_cons.
  case_decide as Hy.
  - subst y. f_equal. apply elem_of_nil_inv. intros z.
    rewrite list_elem_of_filter. by intros [-> ?].
  - apply IH; [done|]. apply elem_of_cons in Hx as [->|]; done.
Qed.

Lemma filter_eq_absent (l : list string) (x : string) :
  x ∉ l → filter (λ i, i = x) l = [].
Proof.
  intros Hx. apply elem_of_nil_inv. intros z.
  rewrite list_elem_of_filter. by intros [-> ?].
Qed.

Lemma filter_ne_absent (l : list string) (x : string) :
  x ∉ l → filter (λ i, i ≠ x) l = l.
Proof.
  induction l as [|y l IH]; [done|].
  rewrite not_elem_of_cons. intros [Hne Hnotin].
  by rewrite filter_cons, decide_True, IH.
Qed.

(** Every frame handled makes [handleMessage] write one reply, under the
    frame's id. *)
Lemma handleFrame_writes f (r : RPC.t V S) s :
  ∃ reply, written (handleFrame f r s).1 = written r ++ [reply]
           ∧ resp_id reply = frame_id f.
Proof.
  destruct f as [msg|reply]; simpl.
  - unfold handleMessage. destruct (handlers r !! method msg) as [h|].
    + destruct (h (params msg) s) as [[result|err] s']; simpl; eauto.
    + simpl. eauto.
  - eauto.
Qed.

Lemma onData_written_since f e s :
  ∃ reply, written_since e (onData f e s).1 = [ReplyFrame reply]
           ∧ resp_id reply = frame_id f.
Proof.
  unfold onData, written_since.
  destruct (handleFrame_writes f (rpc e) s) as (reply & Hw & Hid).
  destruct (handleFrame f (rpc e) s) as [r' s']. simpl in *.
  exists reply. split; [|done].
  rewrite Hw, drop_all, drop_app_length. done.
Qed.
End Requests.

(** X14. A frame settles the requests waiting under its id and no other:
    with the waiting ids distinct, a frame whose id is waiting settles that
    one promise, once, and takes its listener away; a frame whose id is
    not waiting settles nothing; listeners under other ids stay. *)
Theorem onData_settles {V S} (e : Endpoint.t V S) (f : Frame V) (s : S) :
  NoDup (waiting e) →
  (frame_id f ∈ waiting e →
     settled (onData f e s).1 = settled e ++ [(frame_id f, settlement f)]
     ∧ frame_id f ∉ waiting (onData f e s).1)
  ∧ (frame_id f ∉ waiting e → settled (onData f e s).1 = settled e)
  ∧ (∀ i, i ≠ frame_id f → i ∈ waiting (onData f e s).1 ↔ i ∈ waiting e).
Proof.
  intros Hnodup. unfold onData.
  destruct (handleFrame f (rpc e) s) as [r' s']. simpl. split_and!.
  - intros Hin. rewrite (filter_eq_NoDup _ _ Hnodup Hin). split; [done|].
    rewrite list_elem_of_filter. by intros [? _].
  - intros Hnotin. by rewrite (filter_eq_absent _ _ Hnotin), app_nil_r.
  - intros i Hne. rewrite list_elem_of_filter. tauto.
Qed.

Lemma onData_settles_witness :
  let e : Endpoint.t Z nat :=
    request "r2" "halve" [7] (request "r1" "halve" [10] Endpoint.create) in
  let f : Frame Z := ReplyFrame {| resp_id := "r1"; response := Result 5 |} in
  ("r1" ∈ waiting e →
     settled (onData f e 0%nat).1 = settled e ++ [("r1", settlement f)]
     ∧ "r1" ∉ waiting (onData f e 0%nat).1)
  ∧ ("r1" ∉ waiting e → settled (onData f e 0%nat).1 = settled e)
  ∧ (∀ i, i ≠ "r1" → i ∈ waiting (onData f e 0%nat).1 ↔ i ∈ waiting e).
Proof.
  apply (onData_settles
           (request "r2" "halve" [7] (request "r1" "halve" [10] Endpoint.create))
           (ReplyFrame {| resp_id := "r1"; response := Result 5 |}) 0%nat).
  simpl. apply NoDup_cons. split; [|apply NoDup_singleton].
  by intros ?%list_elem_of_singleton.
Defined.

(** X15. A request carried to a peer that has a handler bound for the
    method, and the peer's reply carried back: the handler runs once on
    the parameters; the promise of the request resolves with the
    handler's result, is rejected with the handler's error message, or,
    when that message is empty, resolves with [undefined]. The requester
    stops waiting, and its own answer to the reply, "Method not found",
    is then on its way to the peer. *)
Theorem request_round_trip {V S} (client server : Endpoint.t V S)
    (sc ss ss' : S) (uuid m : string) (ps : list V) (h : Handler V S)
    (r : outcome V) :
  handlers (rpc server) !! m = Some h → h ps ss = (r, ss') →
  NoDup (waiting client) → uuid ∉ waiting client →
  let msg := {| method := m; params := ps; id := uuid |} in
  let l := deliver_near (deliver_far
    {| near := request uuid m ps client; near_state := sc;
       far := server; far_state := ss;
       to_near := [];
       to_far := written_since client (request uuid m ps client) |}) in
  written_since client (request uuid m ps client) = [RequestFrame msg]
  ∧ far_state l = ss' ∧ near_state l = sc
  ∧ settled (near l) = settled client ++
      [(uuid,
        match r with
        | Ok result => Resolved (Some result)
        | Throw e => if decide (message e = "") then Resolved None
                     else Rejected (Error (message e))
        end)]
  ∧ waiting (near l) = waiting client
  ∧ to_near l = []
  ∧ to_far l = [ReplyFrame {| resp_id := uuid;
                              response := ErrorReply "Method not found" |}].
Proof.
  intros Hh Hrun Hnodup Hfresh msg.
  assert (Hsent : written_since client (request uuid m ps client)
                  = [RequestFrame msg]).
  { unfold written_since. simpl.
    by rewrite drop_app_length, drop_all. }
  rewrite Hsent.
  assert (Hserver : ∃ payload,
    handleMessage msg (rpc server) ss
      = (sendResponse uuid payload (rpc server), ss')
    ∧ settlement (ReplyFrame {| resp_id := uuid; response := payload |})
      = match r with
        | Ok result => Resolved (Some result)
        | Throw e => if decide (message e = "") then Resolved None
                     else Rejected (Error (message e))
        end).
  { subst msg. unfold handleMessage. simpl.
    destruct (handlers (rpc server) !! m) as [h0|] eqn:Hh0; [|done].
    simplify_eq. rewrite Hrun. destruct r as [result|e]; eauto. }
  destruct Hserver as (payload & Hhandled & Hsettle).
  set (server' :=
    {| rpc := sendResponse uuid payload (rpc server);
       requested := requested server;
       waiting := filter (λ i, i ≠ uuid) (waiting server);
       settled := settled server ++
         ((λ i, (i, @Resolved V None)) <$>
            filter (λ i, i = uuid) (waiting server)) |}).
  set (client' :=
    {| rpc := sendResponse uuid (ErrorReply "Method not found") (rpc client);
       requested := requested client ++ [msg];
       waiting := waiting client;
       settled := settled client ++
         [(uuid,
           settlement
             (ReplyFrame {| resp_id := uuid; response := payload |}))] |}).
  assert (Hfar : onData (RequestFrame msg) server ss = (server', ss')).
  { unfold onData. simpl. by rewrite Hhandled. }
  assert (Hkeep : filter (λ i, i ≠ uuid) (waiting client ++ [uuid])
                  = waiting client).
  { rewrite filter_app, filter_cons, decide_False, filter_nil, app_nil_r
      by (intros Hne; by apply Hne).
    by apply filter_ne_absent. }
  assert (Hhit : filter (λ i, i = uuid) (waiting client ++ [uuid]) = [uuid]).
  { rewrite filter_app, filter_cons, decide_True, filter_nil by done.
    by rewrite (filter_eq_absent _ _ Hfresh). }
  assert (Hnear :
    onData (ReplyFrame {| resp_id := uuid; response := payload |})
      (request uuid m ps client) sc = (client', sc)).
  { unfold onData. simpl. by rewrite Hkeep, Hhit. }
  assert (Hlink :
    deliver_near (deliver_far
      {| near := request uuid m ps client; near_state := sc;
         far := server; far_state := ss;
         to_near := []; to_far := [RequestFrame msg] |})
    = {| near := client'; near_state := sc;
         far := server'; far_state := ss';
         to_near := [];
         to_far := [ReplyFrame {| resp_id := uuid;
                      response := ErrorReply "Method not found" |}] |}).
  { unfold deliver_far. cbn [to_far far far_state near near_state to_near].
    rewrite Hfar.
    assert (written_since server server'
            = [ReplyFrame {| resp_id := uuid; response := payload |}]) as ->.
    { unfold written_since. simpl. by rewrite drop_all, drop_app_length. }
    unfold deliver_near. cbn [to_far far far_state near near_state to_near app].
    rewrite Hnear. f_equal.
    unfold written_since. simpl. by rewrite drop_all, drop_app_length. }
  intros l. subst l. rewrite Hlink. unfold client'.
  cbn [near far near_state far_state to_near to_far settled waiting].
  rewrite Hsettle. done.
Qed.

Lemma request_round_trip_witness :
  let client : Endpoint.t Z nat := Endpoint.create in
  let server : Endpoint.t Z nat :=
    {| rpc := peer; requested := []; waiting := []; settled := [] |} in
  let msg := {| method := "halve"; params := [7]; id := "r1" |} in
  let l := deliver_near (deliver_far
    {| near := request "r1" "halve" [7] client; near_state := 0%nat;
       far := server; far_state := 0%nat;
       to_near := [];
       to_far := written_since client (request "r1" "halve" [7] client) |}) in
  written_since client (request "r1" "halve" [7] client) = [RequestFrame msg]
  ∧ far_state l = 1%nat ∧ near_state l = 0%nat
  ∧ settled (near l) = settled client ++
      [("r1",
        match Throw (Error "odd") with
        | Ok result => Resolved (Some result)
        | Throw e => if decide (message e = "") then Resolved None
                     else Rejected (Error (message e))
        end)]
  ∧ waiting (near l) = waiting client
  ∧ to_near l = []
  ∧ to_far l = [ReplyFrame {| resp_id := "r1";
                              response := ErrorReply "Method not found" |}].
Proof.
  apply (request_round_trip (V := Z) (S := nat) Endpoint.create
           {| rpc := peer; requested := []; waiting := []; settled := [] |}
           0%nat 0%nat 1%nat "r1" "halve" [7] halve (Throw (Error "odd"))).
  - apply RPCSpec.respond_registers.
  - reflexivity.
  - apply NoDup_nil_2.
  - by intros ?%elem_of_nil.
Defined.

(** X16. Every frame an [RPC] object receives, a request or a reply,
    makes it write exactly one frame back. So between two [RPC] objects
    the number of frames on their way never changes, in whatever order
    they arrive: once a request was sent, the connection never falls
    silent. *)
Theorem frames_are_conserved {V S} (order : list bool) (l : Link V S) :
  in_flight (deliveries order l) = in_flight l.
Proof.
  unfold deliveries. revert l.
  induction order as [|side order IH]; intros l; [done|].
  cbn [foldl]. rewrite IH. clear IH. unfold in_flight.
  destruct side.
  - unfold deliver_near. destruct (to_near l) as [|f rest] eqn:Hq;
      [by rewrite Hq|].
    destruct (onData_written_since f (near l) (near_state l))
      as (reply & Hw & _).
    destruct (onData f (near l) (near_state l)) as [e' s']. simpl in *.
    rewrite Hw, length_app. simpl. lia.
  - unfold deliver_far. destruct (to_far l) as [|f rest] eqn:Hq;
      [by rewrite Hq|].
    destruct (onData_written_since f (far l) (far_state l))
      as (reply & Hw & _).
    destruct (onData f (far l) (far_state l)) as [e' s']. simpl in *.
    rewrite Hw, length_app. simpl. lia.
Qed.

End EndpointSpec.

(** * Properties of the console's validators *)

Module CLISpec.
Import CLI.

Section Trim.
Implicit Types (l input : list N) (c : N).

Lemma trimStart_split l :
  ∃ before, l = before ++ trimStart l
            ∧ Forall (λ c, is_white_space c = true) before.
Proof.
  induction l as [|c l (before & Hl & Hws)]; [by exists []|].
  simpl. destruct (is_white_space c) eqn:Hc.
  - exists (c :: before). split; [by rewrite Hl at 1|by constructor].
  - by exists [].
Qed.

Lemma trimStart_head l c :
  head (trimStart l) = Some c → is_white_space c = false.
Proof.
  induction l as [|c' l IH]; [done|]. simpl.
  destruct (is_white_space c') eqn:Hc; [done|]. by intros [= <-].
Qed.

Lemma trimStart_fixed l :
  (∀ c, head l = Some c → is_white_space c = false) → trimStart l = l.
Proof.
  destruct l as [|c l]; [done|]. intros Hc. simpl.
  by rewrite (Hc c eq_refl).
Qed.

Lemma trimStart_white l :
  Forall (λ c, is_white_space c = true) l → trimStart l = [].
Proof. induction 1 as [|c l Hc _ IH]; [done|]. simpl. by rewrite Hc. Qed.

Lemma trimEnd_split l :
  ∃ after, l = trimEnd l ++ after
           ∧ Forall (λ c, is_white_space c = true) after.
Proof.
  destruct (trimStart_split (reverse l)) as (before & Hl & Hws).
  exists (reverse before). split; [|by apply Forall_reverse].
  unfold trimEnd. rewrite <- reverse_app, <- Hl.
  by rewrite reverse_involutive.
Qed.

Lemma trimEnd_last l c :
  last (trimEnd l) = Some c → is_white_space c = false.
Proof. unfold trimEnd. rewrite last_reverse. apply trimStart_head. Qed.

Lemma trimEnd_fixed l :
  (∀ c, last l = Some c → is_white_space c = false) → trimEnd l = l.
Proof.
  intros Hc. unfold trimEnd. rewrite trimStart_fixed.
  - apply reverse_involutive.
  - intros c. rewrite head_reverse. apply Hc.
Qed.

Lemma trim_split l :
  ∃ before after,
    l = before ++ trim l ++ after
    ∧ Forall (λ c, is_white_space c = true) before
    ∧ Forall (λ c, is_white_space c = true) after.
Proof.
  destruct (trimStart_split l) as (before & Hl & Hb).
  destruct (trimEnd_split (trimStart l)) as (after & Hm & Ha).
  exists before, after. split; [|done]. unfold trim. by rewrite <- Hm.
Qed.

Lemma trim_head l c : head (trim l) = Some c → is_white_space c = false.
Proof.
  destruct (trimEnd_split (trimStart l)) as (after & Hm & _).
  unfold trim. intros Hc. apply (trimStart_head l).
  rewrite Hm. destruct (trimEnd (trimStart l)); [done|]. done.
Qed.

Lemma trim_last l c : last (trim l) = Some c → is_white_space c = false.
Proof. apply trimEnd_last. Qed.

Lemma trim_white l :
  trim l = [] ↔ Forall (λ c, is_white_space c = true) l.
Proof.
  split.
  - intros Hnil. destruct (trim_split l) as (before & after & Hl & Hb & Ha).
    rewrite Hl, Hnil. by apply Forall_app.
  - intros Hws. unfold trim. by rewrite (trimStart_white l Hws).
Qed.

Lemma trim_trim l : trim (trim l) = trim l.
Proof.
  unfold trim at 1. rewrite (trimStart_fixed (trim l)) by apply trim_head.
  apply trimEnd_fixed, trim_last.
Qed.
End Trim.

(** X17. [nonEmptyString] rejects exactly the lines made of white space
    only, the empty line among them. *)
Theorem nonEmptyString_rejects (input : list N) :
  (∃ error, nonEmptyString input = Invalid error)
  ↔ Forall (λ c, is_white_space c = true) input.
Proof.
  unfold nonEmptyString. rewrite <- trim_white.
  case_decide as Hnil; split; try done; eauto.
  by intros [e ?].
Qed.

(** X18. The value [nonEmptyString] accepts is the line without the
    white space at its two ends: it is not empty, neither its first nor
    its last code unit is white space, and the line is that value between
    two runs of white space. Validating the value again returns it
    unchanged. *)
Theorem nonEmptyString_value (input value : list N) :
  nonEmptyString input = Valid value →
  value ≠ []
  ∧ (∃ before after,
       input = before ++ value ++ after
       ∧ Forall (λ c, is_white_space c = true) before
       ∧ Forall (λ c, is_white_space c = true) after)
  ∧ (∀ c, head value = Some c → is_white_space c = false)
  ∧ (∀ c, last value = Some c → is_white_space c = false)
  ∧ nonEmptyString value = Valid value.
Proof.
  unfold nonEmptyString. case_decide as Hnil; [done|]. intros [= <-].
  split_and!.
  - done.
  - apply trim_split.
  - apply trim_head.
  - apply trim_last.
  - rewrite trim_trim. by case_decide.
Qed.

Lemma nonEmptyString_value_witness :
  units "Ming vase" ≠ []
  ∧ (∃ before after,
       units "  Ming vase " = before ++ units "Ming vase" ++ after
       ∧ Forall (λ c, is_white_space c = true) before
       ∧ Forall (λ c, is_white_space c = true) after)
  ∧ (∀ c, head (units "Ming vase") = Some c → is_white_space c = false)
  ∧ (∀ c, last (units "Ming vase") = Some c → is_white_space c = false)
  ∧ nonEmptyString (units "Ming vase") = Valid (units "Ming vase").
Proof.
  apply (nonEmptyString_value (units "  Ming vase ") (units "Ming vase")).
  vm_compute. reflexivity.
Defined.

Section Choice.
Implicit Types (l rest lead : list N) (c d : N).

Lemma digit_not_white c n : digit c = Some n → is_white_space c = false.
Proof.
  unfold digit, is_white_space.
  destruct (N.leb 48 c && N.leb c 57)%bool eqn:Hd; [|done]. intros _.
  apply andb_true_iff in Hd as [H1%N.leb_le H2%N.leb_le].
  repeat (apply orb_false_iff; split);
    try (apply N.eqb_neq; lia).
  apply andb_false_iff. left. apply N.leb_gt. lia.
Qed.

Lemma trimStart_lead lead l :
  Forall (λ c, is_white_space c = true) lead →
  trimStart (lead ++ l) = trimStart l.
Proof. induction 1 as [|c lead Hc _ IH]; [done|]. simpl. by rewrite Hc. Qed.
End Choice.

(** X19. [choice] accepts no number outside 1 to 5, and reads leniently:
    a line that has, after any white space, one digit from 1 to 5 and then
    a code unit that is not a digit (or nothing) is accepted as that
    digit, whatever else follows. *)
Theorem choice_accepts :
  (∀ input num, choice input = Valid num → 1 ≤ num ≤ 5)
  ∧ (∀ lead d rest num,
       Forall (λ c, is_white_space c = true) lead →
       digit d = Some num → 1 ≤ num ≤ 5 →
       (∀ c, head rest = Some c → digit c = None) →
       choice (lead ++ d :: rest) = Valid num).
Proof.
  split.
  - intros input num. unfold choice.
    destruct (parseInt input) as [n|]; [|done].
    destruct (n <? 1) eqn:H1; [done|].
    destruct (n >? 5) eqn:H5; [done|]. simpl. intros [= <-]. lia.
  - intros lead d rest num Hlead Hd Hnum Hrest.
    unfold choice, parseInt. rewrite (trimStart_lead lead _ Hlead).
    simpl. rewrite (digit_not_white d num Hd).
    assert (Hsign : N.eqb d 45 = false ∧ N.eqb d 43 = false).
    { unfold digit in Hd.
      destruct (N.leb 48 d && N.leb d 57)%bool eqn:Hr; [|done].
      apply andb_true_iff in Hr as [H1%N.leb_le _].
      split; apply N.eqb_neq; lia. }
    destruct Hsign as [-> ->]. rewrite Hd. simpl. rewrite Hd.
    assert (digits_value (0 * 10 + num) rest = num) as ->.
    { destruct rest as [|c rest]; simpl; [lia|].
      rewrite (Hrest c eq_refl). lia. }
    replace (1 * num) with num by lia.
    replace (num <? 1) with false by lia.
    by replace (num >? 5) with false by lia.
Qed.

Lemma choice_accepts_witness :
  choice (units "  3abc") = Valid 3.
Proof.
  apply (proj2 choice_accepts (units "  ") 51%N (units "abc") 3).
  - by repeat constructor.
  - reflexivity.
  - lia.
  - by intros c [= <-].
Defined.

(** X20. [getValidInput] returns the value of the first line its
    validator accepts and leaves the lines after it unread; before that it
    has asked once per line read and logged the error of each rejected
    line, in order. When the validator accepts none of the lines the loop
    does not return. *)
Theorem getValidInput_first_valid {A} (prompt : string)
    (validator : list N → Validation A) :
  (∀ rejected good rest value,
     Forall (λ input, ∃ error, validator input = Invalid error) rejected →
     validator good = Valid value →
     getValidInput prompt validator (rejected ++ good :: rest)
     = ((rejected ≫= λ input,
           match validator input with
           | Invalid error => [Question prompt; Log error]
           | Valid _ => []
           end) ++ [Question prompt],
        Some (value, rest)))
  ∧ (∀ lines,
       Forall (λ input, ∃ error, validator input = Invalid error) lines →
       (getValidInput prompt validator lines).2 = None).
Proof.
  split.
  - intros rejected good rest value Hrej Hgood.
    induction Hrej as [|input rejected [error Herr] _ IH]; simpl.
    + by rewrite Hgood.
    + rewrite Herr, IH. done.
  - intros lines Hrej.
    induction Hrej as [|input lines [error Herr] _ IH]; simpl; [done|].
    rewrite Herr. by destruct (getValidInput prompt validator lines).
Qed.

Lemma getValidInput_first_valid_witness :
  getValidInput "Enter your choice (1-5): " choice
    ([units "9"; units "x"] ++ units "4" :: [units "1"])
  = (([units "9"; units "x"] ≫= λ input,
        match choice input with
        | Invalid error => [Question "Enter your choice (1-5): "; Log error]
        | Valid _ => []
        end) ++ [Question "Enter your choice (1-5): "],
     Some (4, [units "1"])).
Proof.
  apply (proj1 (getValidInput_first_valid "Enter your choice (1-5): " choice)).
  - repeat constructor; eexists; vm_compute; reflexivity.
  - vm_compute. reflexivity.
Defined.

End CLISpec.
